(** * Closest-jet matching and heavy-flavour particle filtering

    A shallow embedding of two pieces of the analysis code:

    - [AliAnalysisTaskJetSpectrum::GetClosestJets], the routine relating a
      bounded array of generated jets to a bounded array of reconstructed
      jets through a flag matrix filled in two directions;
    - [AliHFAODMCParticleContainer::AcceptMCParticle(Int_t)] together with
      [IsSpecialPDGDaughter].

    Arrays are lists indexed with stdpp's lookup and insert, [Int_t] values
    are integers in [Z], [Double_t] values are the kernel's binary64 floats
    and a [Float_t] is a binary64 float that went through the rounding to
    binary32. *)

From Stdlib Require Import ZArith Floats Lia.
From stdpp Require Import base list.

Set Default Proof Using "Type".
Set Warnings "-inexact-float".
Local Open Scope Z_scope.

(** ** Machine numbers *)

(** [Int_t] is a 32-bit two's complement integer. *)
Definition Int_t_wrap (z : Z) : Z := (z + 2 ^ 31) `mod` 2 ^ 32 - 2 ^ 31.

Definition Int_t_add (a b : Z) : Z := Int_t_wrap (a + b).

(** Conversion of a [Double_t] to [Float_t] (round to nearest, ties to even,
    overflow to infinity), the value being read back as a double as the
    comparison [dR < dist] does. *)
Definition to_Float_t (x : float) : float :=
  match Prim2SF x with
  | S754_finite s m e => SF2Prim (binary_round_aux 24 128 s (Zpos m) e loc_Exact)
  | _ => x
  end.

(** [const Float_t maxDist = 1.4;] the literal is the double nearest to 1.4. *)
Definition maxDist : float := to_Float_t 0x1.6666666666666p+0%float.

(** ** Loops *)

(** [for (int i = 0; i < n; ++i) body], the body acting on the state. *)
Definition for_ {T : Type} (n : nat) (body : nat → T → T) (s : T) : T :=
  fold_left (λ acc i, body i acc) (seq 0 n) s.

(** Two-dimensional arrays. *)
Definition get2 (m : list (list Z)) (i j : nat) : Z := (m !!! i) !!! j.

Definition set2 (m : list (list Z)) (i j : nat) (v : Z) : list (list Z) :=
  <[i := <[j := v]> (m !!! i)]> m.

(** An [n] by [n] matrix. *)
Definition dims2 (n : nat) (m : list (list Z)) : Prop :=
  length m = n ∧ Forall (λ row, length row = n) m.

(** ** The matcher *)

Section Matcher.

(** [kMaxJets] is an enumerator of the class declaration and [DeltaR] a
    member of [AliAODJet]; both are taken as parameters of the development.
    [jet0] is the default-constructed jet that fills the unused slots of
    the caller's arrays. *)
Variable kMaxJets : nat.
Variable AliAODJet : Type.
Variable jet0 : AliAODJet.
Variable DeltaR : AliAODJet → AliAODJet → float.

(** The memory the routine works on: its arguments (the counts are passed
    by reference, the arrays by pointer), the local matrix [iFlag], whose
    content at declaration is whatever the stack holds, and a ghost
    counter of the calls of [DeltaR]. *)
Record st : Type := St {
  genJets : list AliAODJet;
  nGenJets : Z;
  recJets : list AliAODJet;
  nRecJets : Z;
  iGenIndex : list Z;
  iRecIndex : list Z;
  iFlag : list (list Z);
  nDeltaR : nat
}.

Definition set_iGenIndex (l : list Z) (s : st) : st :=
  St (genJets s) (nGenJets s) (recJets s) (nRecJets s)
     l (iRecIndex s) (iFlag s) (nDeltaR s).

Definition set_iRecIndex (l : list Z) (s : st) : st :=
  St (genJets s) (nGenJets s) (recJets s) (nRecJets s)
     (iGenIndex s) l (iFlag s) (nDeltaR s).

Definition set_iFlag (m : list (list Z)) (s : st) : st :=
  St (genJets s) (nGenJets s) (recJets s) (nRecJets s)
     (iGenIndex s) (iRecIndex s) m (nDeltaR s).

Definition tick (s : st) : st :=
  St (genJets s) (nGenJets s) (recJets s) (nRecJets s)
     (iGenIndex s) (iRecIndex s) (iFlag s) (S (nDeltaR s)).

(** [genJets[ig].DeltaR(&recJets[ir])] *)
Definition dR_of (s : st) (ig ir : nat) : float :=
  DeltaR (nth ig (genJets s) jet0) (nth ir (recJets s) jet0).

(** The reset loop at entry. *)
Definition init_row (i : nat) (s : st) : st :=
  let s := set_iRecIndex (<[i := -1]> (iRecIndex s)) s in
  let s := set_iGenIndex (<[i := -1]> (iGenIndex s)) s in
  for_ kMaxJets (λ j s, set_iFlag (set2 (iFlag s) i j 0) s) s.

Definition init (s : st) : st := for_ kMaxJets init_row s.

(** Body of the inner loop of the first pass; the local [dist] travels
    with the state. *)
Definition forward_cell (ig ir : nat) (sd : st * float) : st * float :=
  let dR := dR_of sd.1 ig ir in
  let s := tick sd.1 in
  if (dR <? sd.2)%float
  then (set_iRecIndex (<[ig := Z.of_nat ir]> (iRecIndex s)) s, to_Float_t dR)
  else (s, sd.2).

Definition forward_row (ig : nat) (s : st) : st :=
  let s := (for_ (Z.to_nat (nRecJets s)) (forward_cell ig) (s, maxDist)).1 in
  let c := iRecIndex s !!! ig in
  if 0 <=? c
  then set_iFlag (set2 (iFlag s) ig (Z.to_nat c)
                       (Int_t_add (get2 (iFlag s) ig (Z.to_nat c)) 1)) s
  else s.

(** No statement of the routine writes the counts, so that the bound a loop
    condition reads at each turn is the one read at its entry. *)
Definition forward_pass (s : st) : st :=
  for_ (Z.to_nat (nGenJets s)) forward_row s.

(** The same in the other direction. *)
Definition backward_cell (ir ig : nat) (sd : st * float) : st * float :=
  let dR := dR_of sd.1 ig ir in
  let s := tick sd.1 in
  if (dR <? sd.2)%float
  then (set_iGenIndex (<[ir := Z.of_nat ig]> (iGenIndex s)) s, to_Float_t dR)
  else (s, sd.2).

Definition backward_col (ir : nat) (s : st) : st :=
  let s := (for_ (Z.to_nat (nGenJets s)) (backward_cell ir) (s, maxDist)).1 in
  let c := iGenIndex s !!! ir in
  if 0 <=? c
  then set_iFlag (set2 (iFlag s) (Z.to_nat c) ir
                       (Int_t_add (get2 (iFlag s) (Z.to_nat c) ir) 2)) s
  else s.

Definition backward_pass (s : st) : st :=
  for_ (Z.to_nat (nRecJets s)) backward_col s.

(** The check for "true" correlations. *)
Definition consensus_cell (ig ir : nat) (s : st) : st :=
  if get2 (iFlag s) ig ir =? 3
  then set_iRecIndex (<[ig := Z.of_nat ir]> (iRecIndex s))
         (set_iGenIndex (<[ir := Z.of_nat ig]> (iGenIndex s)) s)
  else set_iGenIndex (<[ir := -1]> (iGenIndex s))
         (set_iRecIndex (<[ig := -1]> (iRecIndex s)) s).

Definition consensus_row (ig : nat) (s : st) : st :=
  for_ (Z.to_nat (nRecJets s)) (consensus_cell ig) s.

Definition consensus_pass (s : st) : st :=
  for_ (Z.to_nat (nGenJets s)) consensus_row s.

(** State on which the last loop nest starts. *)
Definition passes (s : st) : st := backward_pass (forward_pass (init s)).

(** The routine. The traces printed for [iDebug > 1] are not modelled. *)
Definition GetClosestJets (s : st) (iDebug : Z) : st :=
  let s := init s in
  if nRecJets s =? 0 then s
  else if nGenJets s =? 0 then s
  else consensus_pass (backward_pass (forward_pass s)).

(** The caller's contract: both index buffers and the matrix have
    [kMaxJets] slots per dimension, and the counts were clamped to the
    capacity. *)
Definition dims (s : st) : Prop :=
  length (iGenIndex s) = kMaxJets ∧
  length (iRecIndex s) = kMaxJets ∧
  dims2 kMaxJets (iFlag s).

Definition wf (s : st) : Prop :=
  dims s ∧
  nGenJets s ≤ Z.of_nat kMaxJets ∧
  nRecJets s ≤ Z.of_nat kMaxJets.

(** What the routine only reads. *)
Definition inputs (s : st) : list AliAODJet * Z * list AliAODJet * Z :=
  (genJets s, nGenJets s, recJets s, nRecJets s).

(** Verdict of the last loop nest on one cell, seen from either side. *)
Definition verdict_gen (s : st) (ig ir : nat) : Z :=
  if get2 (iFlag s) ig ir =? 3 then Z.of_nat ig else -1.

Definition verdict_rec (s : st) (ig ir : nat) : Z :=
  if get2 (iFlag s) ig ir =? 3 then Z.of_nat ir else -1.

End Matcher.

Arguments St {_}.
Arguments genJets {_}.
Arguments nGenJets {_}.
Arguments recJets {_}.
Arguments nRecJets {_}.
Arguments iGenIndex {_}.
Arguments iRecIndex {_}.
Arguments iFlag {_}.
Arguments nDeltaR {_}.
Arguments dR_of {_}.
Arguments set_iGenIndex {_}.
Arguments set_iRecIndex {_}.
Arguments set_iFlag {_}.
Arguments tick {_}.
Arguments init_row _ {_}.
Arguments init _ {_}.
Arguments forward_cell {_}.
Arguments forward_row {_}.
Arguments forward_pass {_}.
Arguments backward_cell {_}.
Arguments backward_col {_}.
Arguments backward_pass {_}.
Arguments consensus_cell {_}.
Arguments consensus_row {_}.
Arguments consensus_pass {_}.
Arguments passes _ {_}.
Arguments GetClosestJets _ {_}.
Arguments dims _ {_}.
Arguments wf _ {_}.
Arguments inputs {_}.
Arguments verdict_gen {_}.
Arguments verdict_rec {_}.

(** ** A concrete jet type for the scenarios *)

(** Modelled from the spec: [AliAODJet] and its [DeltaR] are declared outside
    the files at hand; a jet is reduced to pseudorapidity, azimuth and
    transverse momentum, and the distance is the Euclidean combination of the
    pseudorapidity difference and of the azimuth difference brought back to
    one turn. *)
Record Jet : Type := mkJet { Eta : float; Phi : float; Pt : float }.

Definition kPi : float := 0x1.921fb54442d18p+1%float.

Definition Jet_DeltaR (a b : Jet) : float :=
  let dPhi := (Phi a - Phi b)%float in
  let dPhi := if (kPi <? dPhi)%float then (dPhi - 2 * kPi)%float else dPhi in
  let dPhi := if (dPhi <? - kPi)%float then (dPhi + 2 * kPi)%float else dPhi in
  let dEta := (Eta a - Eta b)%float in
  PrimFloat.sqrt (dPhi * dPhi + dEta * dEta)%float.

Definition Jet0 : Jet := mkJet 0 0 0.

(** Capacity used in the scenarios. *)
Definition kMaxJets5 : nat := 5.

(** The caller's frame just before the call: jets copied in the static
    arrays, index buffers preset to -1, the matrix holding stack leftovers. *)
Definition event (gen rec : list Jet) : st Jet :=
  St (gen ++ replicate (kMaxJets5 - length gen) Jet0) (Z.of_nat (length gen))
     (rec ++ replicate (kMaxJets5 - length rec) Jet0) (Z.of_nat (length rec))
     (replicate kMaxJets5 (-1)) (replicate kMaxJets5 (-1))
     (replicate kMaxJets5 (replicate kMaxJets5 7)) 0.

Definition run (gen rec : list Jet) : st Jet :=
  GetClosestJets kMaxJets5 Jet0 Jet_DeltaR (event gen rec) 0.

(** The same event after the first pass, and after both. *)
Definition after_forward (gen rec : list Jet) : st Jet :=
  forward_pass Jet0 Jet_DeltaR (init kMaxJets5 (event gen rec)).

Definition after_backward (gen rec : list Jet) : st Jet :=
  backward_pass Jet0 Jet_DeltaR (after_forward gen rec).

(** The matrix drawn in the comment that heads the routine (generated jets
    a to e, reconstructed jets 1 to 3), with the partners each pass recorded
    to produce it. *)
Definition documented_state : st Jet :=
  St (replicate kMaxJets5 Jet0) 5 (replicate kMaxJets5 Jet0) 3
     [0; 0; 2; -1; -1] [0; 1; 2; 2; 2]
     [[3; 2; 0; 0; 0]; [0; 1; 0; 0; 0]; [0; 0; 3; 0; 0]; [0; 0; 1; 0; 0]; [0; 0; 1; 0; 0]]
     30.

(** ** The heavy-flavour particle container *)

(** Outcome of a call that may dereference a null pointer or, for the walk
    up the mother chain, may not come to an end. *)
Inductive outcome (A : Type) : Type :=
  | Ret (a : A)
  | NullDeref
  | OutOfFuel.

Arguments Ret {_}.
Arguments NullDeref {_}.
Arguments OutOfFuel {_}.

(** The attributes of [AliAODMCParticle] the container reads. *)
Record AliAODMCParticle : Type := mkParticle {
  PdgCode : Z;
  IsPrimary : bool;
  GetMother : Z;
  GetGeneratorIndex : Z
}.

(** The members the two methods read; [fClArray] and [fGeneratorIndex] are
    inherited. A slot of the array may hold a null pointer. *)
Record AliHFAODMCParticleContainer : Type := mkContainer {
  fClArray : list (option AliAODMCParticle);
  fGeneratorIndex : Z;
  fSpecialPDG : Z;
  fRejectedOrigin : Z;
  fAcceptedDecay : Z
}.

(** The default constructor, over the members set by the base class. *)
Definition ctor_default (arr : list (option AliAODMCParticle)) (gi : Z) :
    AliHFAODMCParticleContainer :=
  mkContainer arr gi 0 0 0.

(** [fClArray->At(i)]: a null pointer outside of the bounds. *)
Definition At (c : AliHFAODMCParticleContainer) (i : Z) : option AliAODMCParticle :=
  if i <? 0 then None else mjoin (fClArray c !! Z.to_nat i).

(** [TMath::Abs] on [Int_t]. *)
Definition Abs (d : Z) : Z := if 0 <=? d then d else Int_t_wrap (- d).

Definition is_special (c : AliHFAODMCParticleContainer) (pm : AliAODMCParticle) : bool :=
  (Abs (PdgCode pm) =? fSpecialPDG c) && IsPrimary pm.

(** The [while] loop of [IsSpecialPDGDaughter], one unit of fuel per turn. *)
Fixpoint mother_walk (fuel : nat) (c : AliHFAODMCParticleContainer)
    (pm : AliAODMCParticle) : outcome bool :=
  match fuel with
  | O => OutOfFuel
  | S fuel =>
      let imo := GetMother pm in
      if imo <? 0 then Ret false
      else match At c imo with
           | None => NullDeref
           | Some pm => if is_special c pm then Ret true else mother_walk fuel c pm
           end
  end.

Definition IsSpecialPDGDaughter (fuel : nat) (c : AliHFAODMCParticleContainer)
    (part : option AliAODMCParticle) : outcome bool :=
  if fSpecialPDG c =? 0 then Ret true
  else match part with
       | None => Ret false
       | Some pm => mother_walk fuel c pm
       end.

Section Container.

(** Declared in the base classes and in the D-meson task: the rejection
    bits, the origin and decay classifiers, and the cuts of the base
    container. A cut returns its verdict and the updated rejection
    reason. *)
Variable kHFCut : Z.
Variable kMCGeneratorCut : Z.
Variable CheckOrigin : AliAODMCParticle → list (option AliAODMCParticle) → Z.
Variable CheckDecayChannel : AliAODMCParticle → list (option AliAODMCParticle) → Z.
Variable ApplyKinematicCuts : AliHFAODMCParticleContainer → Z → Z → bool * Z.
Variable base_AcceptMCParticle : AliHFAODMCParticleContainer → Z → Z → bool * Z.

(** [AcceptMCParticle(Int_t i)]; the result carries the last value of the
    local [rejectionReason]. *)
Definition AcceptMCParticle (fuel : nat) (c : AliHFAODMCParticleContainer)
    (i : Z) : outcome (bool * Z) :=
  let rejectionReason := 0 in
  match At c i with
  | None => NullDeref
  | Some part =>
      let partPdgCode := Abs (PdgCode part) in
      let isSpecialPdg :=
        negb (fSpecialPDG c =? 0) && (partPdgCode =? fSpecialPDG c) && IsPrimary part in
      if isSpecialPdg then
        let origin := CheckOrigin part (fClArray c) in
        let isSpecialPdg :=
          if negb (Z.land origin (fRejectedOrigin c) =? 0) then false else isSpecialPdg in
        let decayChannel := CheckDecayChannel part (fClArray c) in
        let isSpecialPdg :=
          if Z.land decayChannel (fAcceptedDecay c) =? 0 then false else isSpecialPdg in
        if (0 <=? fGeneratorIndex c) && negb (fGeneratorIndex c =? GetGeneratorIndex part)
        then Ret (false, Z.lor rejectionReason kMCGeneratorCut)
        else Ret (ApplyKinematicCuts c i rejectionReason)
      else
        match IsSpecialPDGDaughter fuel c (Some part) with
        | Ret true => Ret (false, kHFCut)
        | Ret false => Ret (base_AcceptMCParticle c i rejectionReason)
        | NullDeref => NullDeref
        | OutOfFuel => OutOfFuel
        end
  end.

End Container.

(** ** The task around the matcher *)

(** The histograms the task keeps per jet slot, and those it keeps once. *)
Inductive hist : Type :=
  | fh1E | fh1PtRecIn | fh1PtRecOut | fh1PtGenIn | fh1PtGenOut
  | fh2PtFGen | fh2Frag | fh2FragLn
  | fh3PtRecGenHard | fh3PtRecGenHard_NoW
  | fh3RecEtaPhiPt | fh3RecEtaPhiPt_NoGen | fh3RecEtaPhiPt_NoFound | fh3MCEtaPhiPt.

Inductive event_hist : Type :=
  | fh1PtHard | fh1PtHard_NoW | fh1PtHard_Trials | fh1PtHard_Trials_NoW
  | fh1NGenJets | fh1NRecJets.

Inductive hist_ref : Type :=
  | PerEvent (h : event_hist)
  | PerJet (h : hist) (ij : nat).

Global Instance hist_eq_dec : EqDecision hist.
Proof. solve_decision. Defined.

(** One call of [Fill]: the histogram, its slot, the coordinates and the
    weight. *)
Record fill : Type := Fill {
  fill_hist : hist;
  fill_slot : nat;
  fill_x : list float;
  fill_w : float
}.

Definition count_fills (h : hist) (tr : list fill) : nat :=
  length (filter (λ f, fill_hist f = h) tr).

(** [const Int_t saveLevel = 1;] *)
Definition saveLevel : Z := 1.

(** The calls of [fHistList->Add] in [UserCreateOutputObjects], reached once
    the AOD event is found, on the list the task holds at that point (empty
    when it had none). *)
Definition add_jet_hists (ij : nat) (l : list hist_ref) : list hist_ref :=
  let l := l ++ [PerJet fh1E ij; PerJet fh1PtRecIn ij; PerJet fh1PtRecOut ij;
                 PerJet fh1PtGenIn ij; PerJet fh1PtGenOut ij; PerJet fh2PtFGen ij] in
  if 2 <? saveLevel
  then l ++ [PerJet fh3RecEtaPhiPt ij; PerJet fh3RecEtaPhiPt_NoGen ij;
             PerJet fh3RecEtaPhiPt_NoFound ij; PerJet fh3MCEtaPhiPt ij]
  else l.

(** The six families that [add_jet_hists] lists at the save level set. *)
Definition listed_families : list hist :=
  [fh1E; fh1PtRecIn; fh1PtRecOut; fh1PtGenIn; fh1PtGenOut; fh2PtFGen].

Definition UserCreateOutputObjects_fHistList (kMaxJets : nat) (l : list hist_ref) :
    list hist_ref :=
  if 0 <? saveLevel
  then for_ kMaxJets add_jet_hists
         (l ++ [PerEvent fh1PtHard; PerEvent fh1PtHard_NoW; PerEvent fh1PtHard_Trials;
                PerEvent fh1PtHard_Trials_NoW; PerEvent fh1NGenJets;
                PerEvent fh1NRecJets])
  else l.

(** The three loops of [UserCreateOutputObjects] that compute bin limits
    have one shape: the first limit is set, each further one is the previous
    plus a step. A slot is written before it is read, so the arrays start
    here from zeros. *)
Definition fill_limits (nBin : nat) (first step : float) : list float :=
  for_ (S nBin)
    (λ i a, if (i =? 0)%nat then <[i := first]> a
            else <[i := (nth (i - 1) a 0 + step)%float]> a)
    (replicate (S nBin) 0%float).

Definition binLimitsPt : list float := fill_limits 100 0.0 2.

Definition binLimitsEta : list float := fill_limits 22 (-1.1) 0.1.

(** [1/(Float_t)nBinPhi * TMath::Pi()*2]: the quotient is a [Float_t], the
    products are doubles. *)
Definition binLimitsPhi : list float :=
  fill_limits 360 0 (to_Float_t (1 / 360) * kPi * 2)%float.

(** Limits in strictly increasing order. *)
Fixpoint increasing (l : list float) : bool :=
  match l with
  | a :: (b :: _) as t => (a <? b)%float && increasing t
  | _ => true
  end.

Section Caller.

(** The accessors of [AliAODJet] the event loop reads are parameters, as the
    distance is. *)
Variable kMaxJets : nat.
Variable AliAODJet : Type.
Variable jet0 : AliAODJet.
Variable DeltaR : AliAODJet → AliAODJet → float.
Variable jetPt : AliAODJet → float.
Variable jetEta : AliAODJet → float.
Variable jetPhi : AliAODJet → float.
Variable jetE : AliAODJet → float.

Definition set_nGenJets (n : Z) (s : st AliAODJet) : st AliAODJet :=
  St (genJets s) n (recJets s) (nRecJets s)
     (iGenIndex s) (iRecIndex s) (iFlag s) (nDeltaR s).

Definition set_nRecJets (n : Z) (s : st AliAODJet) : st AliAODJet :=
  St (genJets s) (nGenJets s) (recJets s) n
     (iGenIndex s) (iRecIndex s) (iFlag s) (nDeltaR s).

(** [iGenIndex[i] = iRecIndex[i] = -1;] *)
Definition preset_row (i : nat) (s : st AliAODJet) : st AliAODJet :=
  let s := set_iRecIndex (<[i := -1]> (iRecIndex s)) s in
  set_iGenIndex (<[i := -1]> (iGenIndex s)) s.

(** Body of the loop over the reconstructed jets. *)
Definition rec_fills (s : st AliAODJet) (eventW ptHard : float) (ir : nat) : list fill :=
  let jet := nth ir (recJets s) jet0 in
  let ptRec := jetPt jet in
  let phiRec := jetPhi jet in
  let phiRec := if (phiRec <? 0)%float then (phiRec + kPi * 2)%float else phiRec in
  let etaRec := jetEta jet in
  let ig := iGenIndex s !!! ir in
  [Fill fh1E ir [jetE jet] eventW;
   Fill fh1PtRecIn ir [ptRec] eventW;
   Fill fh3RecEtaPhiPt ir [etaRec; phiRec; ptRec] eventW] ++
  if (0 <=? ig) && (ig <? nGenJets s)
  then let ptGen := jetPt (nth (Z.to_nat ig) (genJets s) jet0) in
       [Fill fh1PtRecOut ir [ptRec] eventW;
        Fill fh2PtFGen ir [ptRec; ptGen] eventW;
        Fill fh3PtRecGenHard ir [ptRec; ptGen; ptHard] eventW;
        Fill fh3PtRecGenHard_NoW ir [ptRec; ptGen; ptHard] 1%float]
  else [].

(** Body of the loop over the generated jets. *)
Definition gen_fills (s : st AliAODJet) (eventW : float) (ig : nat) : list fill :=
  let ptGen := jetPt (nth ig (genJets s) jet0) in
  let ir := iRecIndex s !!! ig in
  Fill fh1PtGenIn ig [ptGen] eventW ::
  if 0 <=? ir then [Fill fh1PtGenOut ig [ptGen] eventW] else [].

(** The end of [UserExec], once the jets of the event are in the two arrays:
    the counts are cut to the capacity, the index buffers preset, the jets
    related, and the histograms of each slot filled. The result is the memory
    and the fills in the order they are made. The cut of the generated count
    stands before the copy of the reconstructed jets in the source; the copy
    does not read it. The fills of the event histograms and the traces are
    left out. *)
Definition UserExec_relate (s : st AliAODJet) (fDebug : Z) (eventW ptHard : float) :
    st AliAODJet * list fill :=
  let s := set_nGenJets (Z.min (nGenJets s) (Z.of_nat kMaxJets)) s in
  let s := set_nRecJets (Z.min (nRecJets s) (Z.of_nat kMaxJets)) s in
  let s := for_ kMaxJets preset_row s in
  let s := GetClosestJets kMaxJets jet0 DeltaR s fDebug in
  let tr := for_ (Z.to_nat (nRecJets s)) (λ ir tr, tr ++ rec_fills s eventW ptHard ir) [] in
  let tr := for_ (Z.to_nat (nGenJets s)) (λ ig tr, tr ++ gen_fills s eventW ig) tr in
  (s, tr).

(** The state the event loop hands to the matcher. *)
Definition handed (s : st AliAODJet) : st AliAODJet :=
  for_ kMaxJets preset_row
    (set_nRecJets (Z.min (nRecJets s) (Z.of_nat kMaxJets))
       (set_nGenJets (Z.min (nGenJets s) (Z.of_nat kMaxJets)) s)).

End Caller.

Arguments set_nGenJets {_}.
Arguments set_nRecJets {_}.
Arguments preset_row {_}.
Arguments rec_fills {_}.
Arguments gen_fills {_}.
Arguments UserExec_relate _ {_}.
Arguments handed _ {_}.

(** ** Copying the jets of the event *)

(** A store in an array of fixed size either takes place or falls beyond the
    last slot. *)
Inductive written (A : Type) : Type :=
  | Written (a : A)
  | OutOfBounds (i : nat).

Arguments Written {_}.
Arguments OutOfBounds {_}.

Section Copies.

Variable kMaxJets : nat.
Variable AliAODJet : Type.

(** [arr[i] = j] *)
Definition store (i : nat) (j : AliAODJet) (arr : list AliAODJet) :
    written (list AliAODJet) :=
  if decide (i < length arr)%nat then Written (<[i := j]> arr) else OutOfBounds i.

(** The loop of [UserExec] that copies a branch of the event into a static
    array: [recJets[ir] = *tmp] for every slot below the count [GetEntries]
    gave that holds a jet; a slot that is empty, or beyond the branch, gives a
    null pointer and is skipped. *)
Definition copy_branch (branch : list (option AliAODJet)) (nJets : Z)
    (arr : list AliAODJet) : written (list AliAODJet) :=
  for_ (Z.to_nat nJets)
    (λ ir w, match w with
             | Written arr =>
                 match branch !! ir with
                 | Some (Some tmp) => store ir tmp arr
                 | _ => Written arr
                 end
             | OutOfBounds i => OutOfBounds i
             end)
    (Written arr).

(** [arr[i].SetPxPyPzE(p[0],p[1],p[2],p[3])], the setter and the momentum
    the generator header gives for a trigger jet being parameters. *)
Variable Momentum : Type.
Variable SetPxPyPzE : Momentum → AliAODJet → AliAODJet.

Definition set_momentum (i : nat) (p : Momentum) (arr : list AliAODJet) :
    written (list AliAODJet) :=
  if decide (i < length arr)%nat then Written (alter (SetPxPyPzE p) i arr)
  else OutOfBounds i.

(** The loop over the trigger jets of the generator header: the slots at or
    beyond [kMaxJets] are skipped, the others go to [pythiaGenJets] and, when
    no generated branch is named, to [genJets] too. *)
Definition copy_trigger_jets (TriggerJet : nat → Momentum) (nPythiaGenJets : Z)
    (noBranchGen : bool) (pythiaGenJets genJets : list AliAODJet) :
    written (list AliAODJet * list AliAODJet) :=
  for_ (Z.to_nat nPythiaGenJets)
    (λ ip w, match w with
             | Written (py, gen) =>
                 if decide (kMaxJets ≤ ip)%nat then Written (py, gen)
                 else match set_momentum ip (TriggerJet ip) py with
                      | Written py =>
                          if noBranchGen
                          then match set_momentum ip (TriggerJet ip) gen with
                               | Written gen => Written (py, gen)
                               | OutOfBounds i => OutOfBounds i
                               end
                          else Written (py, gen)
                      | OutOfBounds i => OutOfBounds i
                      end
             | OutOfBounds i => OutOfBounds i
             end)
    (Written (pythiaGenJets, genJets)).

End Copies.

Arguments store {_}.
Arguments copy_branch {_}.
Arguments set_momentum {_ _}.
Arguments copy_trigger_jets _ {_ _}.

(** ** Mother chains *)

(** [a] is met on the way up from [p]: its mother, the mother of its mother
    and so on. *)
Inductive ancestor (c : AliHFAODMCParticleContainer) :
    AliAODMCParticle → AliAODMCParticle → Prop :=
  | ancestor_mother p m :
      At c (GetMother p) = Some m → ancestor c p m
  | ancestor_further p m a :
      At c (GetMother p) = Some m → ancestor c m a → ancestor c p a.

(** Every particle of the array stands after its mother, as a generator
    writes its stack. *)
Definition mothers_first (c : AliHFAODMCParticleContainer) : Prop :=
  ∀ i p, At c (Z.of_nat i) = Some p → GetMother p < Z.of_nat i.

(** Every mother index that is not negative leads to a particle. *)
Definition mothers_present (c : AliHFAODMCParticleContainer) : Prop :=
  ∀ i p, At c (Z.of_nat i) = Some p → 0 ≤ GetMother p →
         is_Some (At c (GetMother p)).

(** ** Concrete events and stacks *)

(** A frame whose buffers and matrix hold leftovers, with more reconstructed
    jets announced than the arrays can hold. *)
Definition crowded_event : st Jet :=
  St [mkJet 0.0 0.0 20; mkJet 1.0 1.0 15; Jet0; Jet0; Jet0] 2
     [mkJet 0.02 0.01 19.5; mkJet 1.01 0.98 10; mkJet 2.0 2.0 9; mkJet (-1.0) 3.0 8;
      mkJet 0.5 (-2.0) 7] 7
     [4; 4; 4; 4; 4] [0; 1; 2; 3; 4] (replicate kMaxJets5 (replicate kMaxJets5 3)) 0.

(** A charm meson, its two daughters, and a proton with an electron below
    it; the container selects the meson. *)
Definition decay_stack : AliHFAODMCParticleContainer :=
  mkContainer
    [Some (mkParticle 421 true (-1) 0); Some (mkParticle (-321) false 0 0);
     Some (mkParticle 211 false 0 0); Some (mkParticle 2212 true (-1) 0);
     Some (mkParticle 11 false 3 0)]
    (-1) 421 0 0.

(** The named constructor, over the members set by the base class and the
    enumerators of the D-meson task it combines. *)
Definition ctor_named (arr : list (option AliAODMCParticle)) (gi : Z)
    (kUnknownQuark kFromBottom kAnyDecay : Z) : AliHFAODMCParticleContainer :=
  mkContainer arr gi 0 (Z.lor kUnknownQuark kFromBottom) kAnyDecay.

(** A photon recorded as its own mother. *)
Definition looping_stack : AliHFAODMCParticleContainer :=
  mkContainer [Some (mkParticle 22 false 0 0)] (-1) 421 0 0.

(** * Properties *)

(** ** Loops and arrays *)

Lemma for__0 {T : Type} (body : nat → T → T) (s : T) : for_ 0 body s = s.
Proof. reflexivity. Qed.

Lemma for__S {T : Type} (n : nat) (body : nat → T → T) (s : T) :
  for_ (S n) body s = body n (for_ n body s).
Proof. unfold for_. rewrite seq_S, fold_left_app. reflexivity. Qed.

(** Invariant rule of the counted loop. *)
Lemma for__ind {T : Type} (P : nat → T → Prop) (n : nat) (body : nat → T → T) (s : T) :
  P 0%nat s →
  (∀ i t, (i < n)%nat → P i t → P (S i) (body i t)) →
  P n (for_ n body s).
Proof.
  intros H0 Hstep.
  assert (∀ k, (k ≤ n)%nat → P k (for_ k body s)) as Hk; [|by apply Hk].
  induction k as [|k IH]; intros Hle; [done|].
  rewrite for__S. apply Hstep; [lia|]. apply IH. lia.
Qed.

(** A quantity that no turn changes is not changed by the loop. *)
Lemma for__preserves {T A : Type} (f : T → A) (n : nat) (body : nat → T → T) (s : T) :
  (∀ i t, f (body i t) = f t) → f (for_ n body s) = f s.
Proof.
  intros Hbody. apply (for__ind (λ _ t, f t = f s)); [done|].
  intros i t _ <-. apply Hbody.
Qed.

Lemma Int_t_wrap_small (z : Z) : -2 ^ 31 ≤ z < 2 ^ 31 → Int_t_wrap z = z.
Proof.
  intros Hz. unfold Int_t_wrap.
  rewrite Z.mod_small; lia.
Qed.

Lemma dims2_row (n : nat) (m : list (list Z)) (i : nat) :
  dims2 n m → (i < n)%nat → length (m !!! i) = n.
Proof.
  intros [Hl Hr] Hi.
  apply (Forall_lookup_total_1 _ _ i) in Hr; [done|lia].
Qed.

Lemma dims2_set2 (n : nat) (m : list (list Z)) (i j : nat) (v : Z) :
  dims2 n m → dims2 n (set2 m i j v).
Proof.
  intros [Hl Hr]. split; unfold set2.
  - by rewrite length_insert.
  - destruct (decide (i < n)%nat) as [Hi|Hi].
    + apply Forall_insert; [done|]. rewrite length_insert.
      by apply dims2_row.
    + rewrite list_insert_ge; [done|lia].
Qed.

Lemma get2_set2_eq (n : nat) (m : list (list Z)) (i j : nat) (v : Z) :
  dims2 n m → (i < n)%nat → (j < n)%nat → get2 (set2 m i j v) i j = v.
Proof.
  intros Hd Hi Hj. unfold get2, set2.
  rewrite list_lookup_total_insert_eq by (destruct Hd; lia).
  rewrite list_lookup_total_insert_eq; [done|].
  rewrite (dims2_row n); done.
Qed.

Lemma get2_set2_ne (n : nat) (m : list (list Z)) (i j i' j' : nat) (v : Z) :
  dims2 n m → (i, j) ≠ (i', j') → get2 (set2 m i j v) i' j' = get2 m i' j'.
Proof.
  intros Hd Hne. unfold get2, set2.
  destruct (decide (i = i')) as [->|Hi].
  - destruct (decide (i' < length m)%nat) as [Hlt|Hge].
    + rewrite list_lookup_total_insert_eq by done.
      rewrite list_lookup_total_insert_ne; [done|congruence].
    + rewrite list_insert_ge; [done|lia].
  - by rewrite list_lookup_total_insert_ne.
Qed.

(** ** The reset at entry *)

Section MatcherTheory.

Variable kMaxJets : nat.
Variable AliAODJet : Type.
Variable jet0 : AliAODJet.
Variable DeltaR : AliAODJet → AliAODJet → float.

Implicit Types s t : st AliAODJet.

Local Abbreviation gen s i := (iGenIndex s !!! i).
Local Abbreviation rec s i := (iRecIndex s !!! i).
Local Abbreviation flag s i j := (get2 (iFlag s) i j).

(** The zeroing of one row of the matrix. *)
Lemma init_row_flags (i n : nat) t :
  dims2 kMaxJets (iFlag t) → (i < kMaxJets)%nat → (n ≤ kMaxJets)%nat →
  let t' := for_ n (λ j s, set_iFlag (set2 (iFlag s) i j 0) s) t in
  t' = set_iFlag (iFlag t') t ∧
  dims2 kMaxJets (iFlag t') ∧
  (∀ j, (j < n)%nat → flag t' i j = 0) ∧
  (∀ i' j, i' ≠ i → flag t' i' j = flag t i' j).
Proof.
  intros Hd Hi Hn. cbv zeta.
  apply (for__ind (λ n t',
    (n ≤ kMaxJets)%nat →
    t' = set_iFlag (iFlag t') t ∧ dims2 kMaxJets (iFlag t') ∧
    (∀ j, (j < n)%nat → flag t' i j = 0) ∧
    (∀ i' j, i' ≠ i → flag t' i' j = flag t i' j))); [| |done].
  - intros _. destruct t; split_and!; try done. intros; lia.
  - intros j u Hj IH Hle. destruct IH as (Hu & Hdu & Hz & Ho); [lia|].
    rewrite Hu. simpl. split_and!; [done| | |].
    + by apply dims2_set2.
    + intros j' Hj'. destruct (decide (j' = j)) as [->|Hne].
      * apply (get2_set2_eq kMaxJets); [done|done|lia].
      * rewrite (get2_set2_ne kMaxJets); [apply Hz; lia|done|congruence].
    + intros i' j' Hne. rewrite (get2_set2_ne kMaxJets); [by apply Ho|done|congruence].
Qed.

Lemma init_row_spec (i : nat) t :
  dims kMaxJets t → (i < kMaxJets)%nat →
  let t' := init_row kMaxJets i t in
  inputs t' = inputs t ∧ nDeltaR t' = nDeltaR t ∧ dims kMaxJets t' ∧
  iGenIndex t' = <[i := -1]> (iGenIndex t) ∧
  iRecIndex t' = <[i := -1]> (iRecIndex t) ∧
  (∀ j, (j < kMaxJets)%nat → flag t' i j = 0) ∧
  (∀ i' j, i' ≠ i → flag t' i' j = flag t i' j).
Proof.
  intros (Hg & Hr & Hf) Hi. cbv zeta. unfold init_row.
  match goal with |- context [for_ _ ?b ?u] =>
    destruct (init_row_flags i kMaxJets u) as (Hu & Hdu & Hz & Ho);
      [done|done|done|]; cbv zeta in Hu, Hdu, Hz, Ho;
    set (t' := for_ kMaxJets b u) in *
  end.
  rewrite Hu. simpl. unfold dims. simpl. rewrite !length_insert.
  split_and!; done.
Qed.

(** The reset loop leaves -1 in every slot of both index buffers and 0 in
    every cell of the matrix, whatever they held. *)
Lemma init_spec s :
  dims kMaxJets s →
  init kMaxJets s =
    St (genJets s) (nGenJets s) (recJets s) (nRecJets s)
       (replicate kMaxJets (-1)) (replicate kMaxJets (-1))
       (replicate kMaxJets (replicate kMaxJets 0)) (nDeltaR s).
Proof.
  intros Hd.
  assert (let t := init kMaxJets s in
          inputs t = inputs s ∧ nDeltaR t = nDeltaR s ∧ dims kMaxJets t ∧
          ∀ i, (i < kMaxJets)%nat →
            gen t i = -1 ∧ rec t i = -1 ∧ ∀ j, (j < kMaxJets)%nat → flag t i j = 0)
    as (Hin & Hn & (Hg & Hr & Hfl & Hfr) & Hall).
  { cbv zeta. unfold init.
    apply (for__ind (λ n t,
      (n ≤ kMaxJets)%nat →
      inputs t = inputs s ∧ nDeltaR t = nDeltaR s ∧ dims kMaxJets t ∧
      ∀ i, (i < n)%nat →
        gen t i = -1 ∧ rec t i = -1 ∧ ∀ j, (j < kMaxJets)%nat → flag t i j = 0));
      [| |done].
    - intros _. split_and!; [done|done|done|intros; lia].
    - intros i t Hi IH Hle. destruct IH as (Hin & Hn & Hdt & Hall); [lia|].
      destruct (init_row_spec i t Hdt Hi) as (Hin' & Hn' & Hd' & Hg' & Hr' & Hz & Ho).
      cbv zeta in *. split; [congruence|]. split; [congruence|]. split; [done|].
      intros i' Hi'. rewrite Hg', Hr'. destruct Hdt as (Hlg & Hlr & _).
      destruct (decide (i' = i)) as [->|Hne].
      + rewrite !list_lookup_total_insert_eq by lia. auto.
      + rewrite !list_lookup_total_insert_ne by done.
        destruct (Hall i') as (? & ? & Hf); [lia|].
        split_and!; [done|done|]. intros j Hj. rewrite Ho by done. by apply Hf. }
  cbv zeta in *. destruct (init kMaxJets s) as [gj ng rj nr G R F N].
  unfold inputs in Hin. simpl in *. injection Hin as -> -> -> ->. subst N.
  f_equal.
  - apply (list_eq_same_length _ _ kMaxJets); [by rewrite length_replicate|done|].
    intros i x y Hi Hx Hy. apply lookup_replicate in Hy as [-> _].
    apply list_lookup_total_correct in Hx. destruct (Hall i Hi) as (? & _). congruence.
  - apply (list_eq_same_length _ _ kMaxJets); [by rewrite length_replicate|done|].
    intros i x y Hi Hx Hy. apply lookup_replicate in Hy as [-> _].
    apply list_lookup_total_correct in Hx. destruct (Hall i Hi) as (_ & ? & _). congruence.
  - apply (list_eq_same_length _ _ kMaxJets); [by rewrite length_replicate|done|].
    intros i x y Hi Hx Hy. apply lookup_replicate in Hy as [-> _].
    assert (length x = kMaxJets) as Hlx by (by eapply Forall_lookup_1 in Hfr).
    apply list_lookup_total_correct in Hx. subst x.
    apply (list_eq_same_length _ _ kMaxJets); [by rewrite length_replicate|done|].
    intros j x y Hj Hx Hy. apply lookup_replicate in Hy as [-> _].
    apply list_lookup_total_correct in Hx.
    destruct (Hall i Hi) as (_ & _ & Hf). specialize (Hf j Hj). unfold get2 in Hf.
    congruence.
Qed.

(** ** The two direction passes *)

(** One scan of the first pass writes the slot of its source jet only. *)
Lemma forward_cells_spec (ig n : nat) t (d : float) :
  (ig < length (iRecIndex t))%nat →
  let t' := (for_ n (forward_cell jet0 DeltaR ig) (t, d)).1 in
  inputs t' = inputs t ∧ iGenIndex t' = iGenIndex t ∧ iFlag t' = iFlag t ∧
  length (iRecIndex t') = length (iRecIndex t) ∧
  (∀ g, g ≠ ig → rec t' g = rec t g) ∧
  (rec t' ig = rec t ig ∨ 0 ≤ rec t' ig < Z.of_nat n).
Proof.
  intros Hig. cbv zeta.
  apply (for__ind (λ n (sd : st AliAODJet * float),
    inputs sd.1 = inputs t ∧ iGenIndex sd.1 = iGenIndex t ∧ iFlag sd.1 = iFlag t ∧
    length (iRecIndex sd.1) = length (iRecIndex t) ∧
    (∀ g, g ≠ ig → rec sd.1 g = rec t g) ∧
    (rec sd.1 ig = rec t ig ∨ 0 ≤ rec sd.1 ig < Z.of_nat n))).
  - simpl. split_and!; auto.
  - intros ir [u e] _ (Hin & Hg & Hf & Hl & Ho & Hc). simpl in *.
    unfold forward_cell. simpl. case_match; simpl.
    + rewrite length_insert. split_and!; [done|done|done|done| |].
      * intros g Hne. rewrite list_lookup_total_insert_ne by done. by apply Ho.
      * right. rewrite list_lookup_total_insert_eq by lia. lia.
    + split_and!; [done|done|done|done|done|]. destruct Hc; [by left|right; lia].
Qed.

Lemma backward_cells_spec (ir n : nat) t (d : float) :
  (ir < length (iGenIndex t))%nat →
  let t' := (for_ n (backward_cell jet0 DeltaR ir) (t, d)).1 in
  inputs t' = inputs t ∧ iRecIndex t' = iRecIndex t ∧ iFlag t' = iFlag t ∧
  length (iGenIndex t') = length (iGenIndex t) ∧
  (∀ r, r ≠ ir → gen t' r = gen t r) ∧
  (gen t' ir = gen t ir ∨ 0 ≤ gen t' ir < Z.of_nat n).
Proof.
  intros Hir. cbv zeta.
  apply (for__ind (λ n (sd : st AliAODJet * float),
    inputs sd.1 = inputs t ∧ iRecIndex sd.1 = iRecIndex t ∧ iFlag sd.1 = iFlag t ∧
    length (iGenIndex sd.1) = length (iGenIndex t) ∧
    (∀ r, r ≠ ir → gen sd.1 r = gen t r) ∧
    (gen sd.1 ir = gen t ir ∨ 0 ≤ gen sd.1 ir < Z.of_nat n))).
  - simpl. split_and!; auto.
  - intros ig [u e] _ (Hin & Hr & Hf & Hl & Ho & Hc). simpl in *.
    unfold backward_cell. simpl. case_match; simpl.
    + rewrite length_insert. split_and!; [done|done|done|done| |].
      * intros r Hne. rewrite list_lookup_total_insert_ne by done. by apply Ho.
      * right. rewrite list_lookup_total_insert_eq by lia. lia.
    + split_and!; [done|done|done|done|done|]. destruct Hc; [by left|right; lia].
Qed.

(** One turn of the outer loop of the first pass, started on a source jet
    whose slot still holds -1. *)
Lemma forward_row_spec (ig : nat) t :
  dims kMaxJets t → (ig < kMaxJets)%nat → nRecJets t ≤ Z.of_nat kMaxJets →
  rec t ig = -1 →
  let t' := forward_row jet0 DeltaR ig t in
  inputs t' = inputs t ∧ iGenIndex t' = iGenIndex t ∧ dims kMaxJets t' ∧
  (∀ g, g ≠ ig → rec t' g = rec t g) ∧
  (rec t' ig = -1 ∨ 0 ≤ rec t' ig < nRecJets t) ∧
  (∀ g r, (g < kMaxJets)%nat → (r < kMaxJets)%nat →
     flag t' g r =
       if decide (g = ig ∧ rec t' ig = Z.of_nat r)
       then Int_t_add (flag t g r) 1 else flag t g r).
Proof.
  intros (Hlg & Hlr & Hd2) Hig Hn Hm1. cbv zeta. unfold forward_row.
  destruct (forward_cells_spec ig (Z.to_nat (nRecJets t)) t maxDist)
    as (Hin & Hg & Hf & Hl & Ho & Hc); [lia|].
  cbv zeta in *.
  set (u := (for_ (Z.to_nat (nRecJets t)) (forward_cell jet0 DeltaR ig) (t, maxDist)).1) in *.
  assert (rec u ig = -1 ∨ 0 ≤ rec u ig < nRecJets t) as Hc' by lia.
  destruct (Z.leb_spec 0 (rec u ig)) as [Hpos|Hneg].
  - destruct Hc' as [Hc'|Hc']; [lia|]. simpl. unfold dims. simpl.
    rewrite Hg, Hl, Hf. split_and!; [done|done|done|done| |done|by right|].
    { by apply dims2_set2. }
    intros g r Hgk Hrk. case_decide as Hgr.
    + destruct Hgr as [-> Hr]. rewrite Hr, Nat2Z.id.
      by rewrite (get2_set2_eq kMaxJets).
    + rewrite (get2_set2_ne kMaxJets); [done|done|].
      intros [= -> <-]. apply Hgr. split; [done|lia].
  - destruct Hc' as [Hc'|Hc']; [|lia]. unfold dims. rewrite Hg, Hl, Hf.
    split_and!; [done|done|done|done|done|done|by left|].
    intros g r Hgk Hrk. rewrite decide_False; [done|]. intros [_ Hr]. lia.
Qed.

Lemma backward_col_spec (ir : nat) t :
  dims kMaxJets t → (ir < kMaxJets)%nat → nGenJets t ≤ Z.of_nat kMaxJets →
  gen t ir = -1 →
  let t' := backward_col jet0 DeltaR ir t in
  inputs t' = inputs t ∧ iRecIndex t' = iRecIndex t ∧ dims kMaxJets t' ∧
  (∀ r, r ≠ ir → gen t' r = gen t r) ∧
  (gen t' ir = -1 ∨ 0 ≤ gen t' ir < nGenJets t) ∧
  (∀ g r, (g < kMaxJets)%nat → (r < kMaxJets)%nat →
     flag t' g r =
       if decide (r = ir ∧ gen t' ir = Z.of_nat g)
       then Int_t_add (flag t g r) 2 else flag t g r).
Proof.
  intros (Hlg & Hlr & Hd2) Hir Hn Hm1. cbv zeta. unfold backward_col.
  destruct (backward_cells_spec ir (Z.to_nat (nGenJets t)) t maxDist)
    as (Hin & Hr & Hf & Hl & Ho & Hc); [lia|].
  cbv zeta in *.
  set (u := (for_ (Z.to_nat (nGenJets t)) (backward_cell jet0 DeltaR ir) (t, maxDist)).1) in *.
  assert (gen u ir = -1 ∨ 0 ≤ gen u ir < nGenJets t) as Hc' by lia.
  destruct (Z.leb_spec 0 (gen u ir)) as [Hpos|Hneg].
  - destruct Hc' as [Hc'|Hc']; [lia|]. simpl. unfold dims. simpl.
    rewrite Hr, Hl, Hf. split_and!; [done|done|done|done| |done|by right|].
    { by apply dims2_set2. }
    intros g r Hgk Hrk. case_decide as Hgr.
    + destruct Hgr as [-> Hg]. rewrite Hg, Nat2Z.id.
      by rewrite (get2_set2_eq kMaxJets).
    + rewrite (get2_set2_ne kMaxJets); [done|done|].
      intros [= <- ->]. apply Hgr. split; [done|lia].
  - destruct Hc' as [Hc'|Hc']; [|lia]. unfold dims. rewrite Hr, Hl, Hf.
    split_and!; [done|done|done|done|done|done|by left|].
    intros g r Hgk Hrk. rewrite decide_False; [done|]. intros [_ Hg]. lia.
Qed.

(** After the first pass, started on reset buffers: each source jet holds
    -1 or a partner below the count, and its row of the matrix holds a 1 at
    the partner and 0 elsewhere. *)
Lemma forward_pass_spec t :
  dims kMaxJets t →
  nGenJets t ≤ Z.of_nat kMaxJets → nRecJets t ≤ Z.of_nat kMaxJets →
  (∀ g, (g < kMaxJets)%nat → rec t g = -1) →
  (∀ g r, (g < kMaxJets)%nat → (r < kMaxJets)%nat → flag t g r = 0) →
  let t' := forward_pass jet0 DeltaR t in
  inputs t' = inputs t ∧ iGenIndex t' = iGenIndex t ∧ dims kMaxJets t' ∧
  ∀ g, (g < kMaxJets)%nat →
    (rec t' g = -1 ∨ (0 ≤ rec t' g < nRecJets t ∧ Z.of_nat g < nGenJets t)) ∧
    ∀ r, (r < kMaxJets)%nat →
      flag t' g r = if decide (rec t' g = Z.of_nat r) then 1 else 0.
Proof.
  intros Hd HnG HnR Hrec Hflag. cbv zeta. unfold forward_pass.
  destruct (for__ind (λ n u,
    inputs u = inputs t ∧ iGenIndex u = iGenIndex t ∧ dims kMaxJets u ∧
    ∀ g, (g < kMaxJets)%nat →
      (rec u g = -1 ∨ (0 ≤ rec u g < nRecJets t ∧ (g < n)%nat)) ∧
      ∀ r, (r < kMaxJets)%nat →
        flag u g r = if decide (rec u g = Z.of_nat r) then 1 else 0)
    (Z.to_nat (nGenJets t)) (forward_row jet0 DeltaR) t) as (Hin & Hgen & Hdu & Hall).
  - split_and!; [done|done|done|]. intros g Hg. split; [left; by apply Hrec|].
    intros r Hr. rewrite Hflag, Hrec by done. rewrite decide_False; [done|lia].
  - intros ig u Hig (Hin & Hgen & Hdu & Hall).
    assert (nRecJets u = nRecJets t) as HnR' by (unfold inputs in Hin; congruence).
    assert (rec u ig = -1) as Hm1.
    { destruct (Hall ig) as ([?|[_ ?]] & _); [lia|done|lia]. }
    destruct (forward_row_spec ig u) as (Hin' & Hgen' & Hd' & Ho & Hc & Hf);
      [done|lia|lia|done|].
    cbv zeta in *.
    set (u' := forward_row jet0 DeltaR ig u) in *.
    split_and!; [congruence|congruence|done|].
    intros g Hg. destruct (Hall g Hg) as (Hrg & Hfg).
    destruct (decide (g = ig)) as [->|Hne].
    + split; [destruct Hc as [?|?]; [by left|right; lia]|].
      intros r Hr. rewrite Hf, Hfg by done. rewrite Hm1.
      rewrite (decide_False (P := -1 = Z.of_nat r)) by lia.
      destruct (decide (rec u' ig = Z.of_nat r)) as [He|He].
      * by rewrite decide_True.
      * rewrite decide_False; [done|]. by intros [_ ?].
    + rewrite Ho by done. split; [destruct Hrg as [?|[? ?]]; [by left|right; lia]|].
      intros r Hr. rewrite Hf, Hfg by done.
      rewrite (decide_False (P := g = ig ∧ _)); [done|]. by intros [? _].
  - split_and!; [done|done|done|].
    intros g Hg. destruct (Hall g Hg) as (Hrg & Hfg). split; [|done].
    destruct Hrg as [?|[? ?]]; [by left|right; lia].
Qed.

(** The second pass adds 2 at the cell of each partner it records and leaves
    the slots of the first pass alone. *)
Lemma backward_pass_spec t :
  dims kMaxJets t →
  nGenJets t ≤ Z.of_nat kMaxJets → nRecJets t ≤ Z.of_nat kMaxJets →
  (∀ r, (r < kMaxJets)%nat → gen t r = -1) →
  (∀ g r, (g < kMaxJets)%nat → (r < kMaxJets)%nat → 0 ≤ flag t g r ≤ 1) →
  let t' := backward_pass jet0 DeltaR t in
  inputs t' = inputs t ∧ iRecIndex t' = iRecIndex t ∧ dims kMaxJets t' ∧
  ∀ r, (r < kMaxJets)%nat →
    (gen t' r = -1 ∨ (0 ≤ gen t' r < nGenJets t ∧ Z.of_nat r < nRecJets t)) ∧
    ∀ g, (g < kMaxJets)%nat →
      flag t' g r = flag t g r + if decide (gen t' r = Z.of_nat g) then 2 else 0.
Proof.
  intros Hd HnG HnR Hgen Hflag. cbv zeta. unfold backward_pass.
  destruct (for__ind (λ n u,
    inputs u = inputs t ∧ iRecIndex u = iRecIndex t ∧ dims kMaxJets u ∧
    ∀ r, (r < kMaxJets)%nat →
      (gen u r = -1 ∨ (0 ≤ gen u r < nGenJets t ∧ (r < n)%nat)) ∧
      ∀ g, (g < kMaxJets)%nat →
        flag u g r = flag t g r + if decide (gen u r = Z.of_nat g) then 2 else 0)
    (Z.to_nat (nRecJets t)) (backward_col jet0 DeltaR) t) as (Hin & Hrec & Hdu & Hall).
  - split_and!; [done|done|done|]. intros r Hr. split; [left; by apply Hgen|].
    intros g Hg. rewrite Hgen by done. rewrite decide_False; lia.
  - intros ir u Hir (Hin & Hrec & Hdu & Hall).
    assert (nGenJets u = nGenJets t) as HnG' by (unfold inputs in Hin; congruence).
    assert (gen u ir = -1) as Hm1.
    { destruct (Hall ir) as ([?|[_ ?]] & _); [lia|done|lia]. }
    destruct (backward_col_spec ir u) as (Hin' & Hrec' & Hd' & Ho & Hc & Hf);
      [done|lia|lia|done|].
    cbv zeta in *.
    set (u' := backward_col jet0 DeltaR ir u) in *.
    split_and!; [congruence|congruence|done|].
    intros r Hr. destruct (Hall r Hr) as (Hgr & Hfr).
    destruct (decide (r = ir)) as [->|Hne].
    + split; [destruct Hc as [?|?]; [by left|right; lia]|].
      intros g Hg. rewrite Hf, Hfr by done. rewrite Hm1.
      rewrite (decide_False (P := -1 = Z.of_nat g)) by lia.
      specialize (Hflag g ir Hg Hr). rewrite Z.add_0_r.
      destruct (decide (gen u' ir = Z.of_nat g)) as [He|He].
      * rewrite decide_True by done.
        unfold Int_t_add. rewrite Int_t_wrap_small; lia.
      * rewrite decide_False; [lia|]. by intros [_ ?].
    + rewrite Ho by done. split; [destruct Hgr as [?|[? ?]]; [by left|right; lia]|].
      intros g Hg. rewrite Hf, Hfr by done.
      rewrite (decide_False (P := r = ir ∧ _)); [done|]. by intros [? _].
  - split_and!; [done|done|done|].
    intros r Hr. destruct (Hall r Hr) as (Hgr & Hfr). split; [|done].
    destruct Hgr as [?|[? ?]]; [by left|right; lia].
Qed.

(** The state on which the last loop nest starts: every cell of the matrix
    is the sum of bit 1, set when the column is the row's partner, and of
    bit 2, set when the row is the column's partner. *)
Lemma passes_spec s :
  wf kMaxJets s →
  let t := passes kMaxJets jet0 DeltaR s in
  inputs t = inputs s ∧ dims kMaxJets t ∧
  ∀ g r, (g < kMaxJets)%nat → (r < kMaxJets)%nat →
    (rec t g = -1 ∨ (0 ≤ rec t g < nRecJets s ∧ Z.of_nat g < nGenJets s)) ∧
    (gen t r = -1 ∨ (0 ≤ gen t r < nGenJets s ∧ Z.of_nat r < nRecJets s)) ∧
    flag t g r = (if decide (rec t g = Z.of_nat r) then 1 else 0)
                 + (if decide (gen t r = Z.of_nat g) then 2 else 0).
Proof.
  intros (Hd & HnG & HnR). cbv zeta. unfold passes.
  rewrite (init_spec s Hd).
  set (t0 := St _ _ _ _ _ _ _ _).
  assert (dims kMaxJets t0) as Hd0.
  { unfold dims, dims2; simpl. rewrite !length_replicate. split_and!; try done.
    apply Forall_replicate, length_replicate. }
  destruct (forward_pass_spec t0) as (Hin1 & Hg1 & Hd1 & Hall1); [done|done|done| | |].
  { intros g Hg. simpl. by rewrite lookup_total_replicate_2. }
  { intros g r Hg Hr. unfold get2. simpl. by rewrite !lookup_total_replicate_2. }
  cbv zeta in *. set (t1 := forward_pass jet0 DeltaR t0) in *.
  assert (nGenJets t1 = nGenJets s ∧ nRecJets t1 = nRecJets s) as [HG1 HR1].
  { unfold inputs in Hin1. simpl in Hin1. split; congruence. }
  destruct (backward_pass_spec t1) as (Hin2 & Hr2 & Hd2 & Hall2); [done|lia|lia| | |].
  { intros r Hr. rewrite Hg1. simpl. by rewrite lookup_total_replicate_2. }
  { intros g r Hg Hr. destruct (Hall1 g Hg) as (_ & Hf). rewrite (Hf r Hr).
    case_decide; lia. }
  cbv zeta in *. set (t2 := backward_pass jet0 DeltaR t1) in *.
  split_and!; [by rewrite Hin2, Hin1|done|].
  intros g r Hg Hr. destruct (Hall1 g Hg) as (Hc1 & Hf1).
  destruct (Hall2 r Hr) as (Hc2 & Hf2). rewrite Hr2, Hf2, Hf1 by done.
  rewrite HG1, HR1 in Hc2. simpl in Hc1. done.
Qed.

(** A cell carries 3 exactly when its row and its column chose each other. *)
Lemma iFlag_3_iff_mutual s (g r : nat) :
  wf kMaxJets s → (g < kMaxJets)%nat → (r < kMaxJets)%nat →
  let t := passes kMaxJets jet0 DeltaR s in
  flag t g r = 3 ↔ rec t g = Z.of_nat r ∧ gen t r = Z.of_nat g.
Proof.
  intros Hwf Hg Hr. cbv zeta.
  destruct (passes_spec s Hwf) as (_ & _ & Hall).
  destruct (Hall g r Hg Hr) as (_ & _ & ->).
  repeat case_decide; split; (lia || tauto || (intros [? ?]; done)).
Qed.

(** ** The last loop nest *)

Lemma consensus_cells_spec (ig n : nat) t :
  (ig < length (iRecIndex t))%nat → (n ≤ length (iGenIndex t))%nat →
  let t' := for_ n (consensus_cell ig) t in
  inputs t' = inputs t ∧ iFlag t' = iFlag t ∧ nDeltaR t' = nDeltaR t ∧
  length (iGenIndex t') = length (iGenIndex t) ∧
  length (iRecIndex t') = length (iRecIndex t) ∧
  (∀ r, gen t' r = if decide (r < n)%nat then verdict_gen t ig r else gen t r) ∧
  (∀ g, rec t' g = if decide (g = ig ∧ 0 < n)%nat
                   then verdict_rec t ig (n - 1) else rec t g).
Proof.
  intros Hig Hn. cbv zeta.
  pose proof (for__ind (λ m t',
    (m ≤ length (iGenIndex t))%nat →
    inputs t' = inputs t ∧ iFlag t' = iFlag t ∧ nDeltaR t' = nDeltaR t ∧
    length (iGenIndex t') = length (iGenIndex t) ∧
    length (iRecIndex t') = length (iRecIndex t) ∧
    (∀ r, gen t' r = if decide (r < m)%nat then verdict_gen t ig r else gen t r) ∧
    (∀ g, rec t' g = if decide (g = ig ∧ 0 < m)%nat
                     then verdict_rec t ig (m - 1) else rec t g))
    n (consensus_cell ig) t) as Hloop.
  apply Hloop; [| |done]; clear Hloop.
  - intros _. split_and!; try done.
    intros g. rewrite decide_False; [done|lia].
  - intros ir u Hir IH Hle.
    destruct IH as (Hin & Hf & Hc & Hlg & Hlr & Hgen & Hrec); [lia|].
    replace (S ir - 1)%nat with ir by lia.
    assert (∀ v w,
      let u' := set_iRecIndex (<[ig := w]> (iRecIndex u))
                  (set_iGenIndex (<[ir := v]> (iGenIndex u)) u) in
      verdict_gen t ig ir = v → verdict_rec t ig ir = w →
      inputs u' = inputs t ∧ iFlag u' = iFlag t ∧ nDeltaR u' = nDeltaR t ∧
      length (iGenIndex u') = length (iGenIndex t) ∧
      length (iRecIndex u') = length (iRecIndex t) ∧
      (∀ r, gen u' r = if decide (r < S ir)%nat then verdict_gen t ig r else gen t r) ∧
      (∀ g, rec u' g = if decide (g = ig ∧ 0 < S ir)%nat
                       then verdict_rec t ig ir else rec t g)) as Hstep.
    { intros v w u' Hv Hw. subst u'. simpl. rewrite !length_insert.
      split_and!; [done|done|done|done|done| |].
      - intros r. destruct (decide (r = ir)) as [->|Hne].
        + rewrite list_lookup_total_insert_eq by lia.
          rewrite decide_True by lia. done.
        + rewrite list_lookup_total_insert_ne by done. rewrite Hgen.
          repeat case_decide; (done || lia).
      - intros g. destruct (decide (g = ig)) as [->|Hne].
        + rewrite list_lookup_total_insert_eq by lia.
          rewrite decide_True by (split; [done|lia]). done.
        + rewrite list_lookup_total_insert_ne by done. rewrite Hrec.
          rewrite !(decide_False (P := g = ig ∧ _)); [done| |]; by intros [? _]. }
    unfold consensus_cell, verdict_gen, verdict_rec in *. rewrite Hf.
    destruct (get2 (iFlag t) ig ir =? 3); by apply Hstep.
Qed.

Lemma consensus_rows_spec (m : nat) t :
  let nR := Z.to_nat (nRecJets t) in
  (m ≤ length (iRecIndex t))%nat → (nR ≤ length (iGenIndex t))%nat →
  let t' := for_ m consensus_row t in
  inputs t' = inputs t ∧ iFlag t' = iFlag t ∧ nDeltaR t' = nDeltaR t ∧
  length (iGenIndex t') = length (iGenIndex t) ∧
  length (iRecIndex t') = length (iRecIndex t) ∧
  (∀ r, gen t' r = if decide (r < nR ∧ 0 < m)%nat
                   then verdict_gen t (m - 1) r else gen t r) ∧
  (∀ g, rec t' g = if decide (g < m ∧ 0 < nR)%nat
                   then verdict_rec t g (nR - 1) else rec t g).
Proof.
  intros nR Hm HnR. cbv zeta.
  pose proof (for__ind (λ k t',
    (k ≤ length (iRecIndex t))%nat →
    inputs t' = inputs t ∧ iFlag t' = iFlag t ∧ nDeltaR t' = nDeltaR t ∧
    length (iGenIndex t') = length (iGenIndex t) ∧
    length (iRecIndex t') = length (iRecIndex t) ∧
    (∀ r, gen t' r = if decide (r < nR ∧ 0 < k)%nat
                     then verdict_gen t (k - 1) r else gen t r) ∧
    (∀ g, rec t' g = if decide (g < k ∧ 0 < nR)%nat
                     then verdict_rec t g (nR - 1) else rec t g))
    m consensus_row t) as Hloop.
  apply Hloop; [| |done]; clear Hloop.
  - intros _. split_and!; try done.
    intros g. rewrite decide_False; [done|lia].
  - intros ig u Hig IH Hle.
    destruct IH as (Hin & Hf & Hc & Hlg & Hlr & Hgen & Hrec); [lia|].
    replace (S ig - 1)%nat with ig by lia.
    assert (nRecJets u = nRecJets t) as HnRu by (unfold inputs in Hin; congruence).
    unfold consensus_row. rewrite HnRu. fold nR.
    destruct (consensus_cells_spec ig nR u) as (Hin' & Hf' & Hc' & Hlg' & Hlr' & Hgen' & Hrec');
      [lia|lia|]. cbv zeta in *.
    set (u' := for_ nR (consensus_cell ig) u) in *.
    assert (∀ a b, verdict_gen u a b = verdict_gen t a b) as Hvg
      by (intros; unfold verdict_gen; by rewrite Hf).
    assert (∀ a b, verdict_rec u a b = verdict_rec t a b) as Hvr
      by (intros; unfold verdict_rec; by rewrite Hf).
    split_and!; [congruence|congruence|congruence|congruence|congruence| |].
    + intros r. rewrite Hgen', Hgen, Hvg.
      repeat case_decide; (done || lia).
    + intros g. rewrite Hrec', Hrec, Hvr.
      destruct (decide (g = ig)) as [->|Hne].
      * destruct (decide (0 < nR)%nat).
        -- rewrite !decide_True by lia. done.
        -- rewrite !decide_False by lia. done.
      * rewrite (decide_False (P := (g = ig ∧ _))) by (by intros [? _]).
        repeat case_decide; (done || lia).
Qed.

(** Closed form of the result, slot by slot: a slot below the count holds
    the verdict of the last cell that touched it, any other slot holds -1. *)
Lemma GetClosestJets_slots s (iDebug : Z) :
  wf kMaxJets s →
  let t := passes kMaxJets jet0 DeltaR s in
  let out := GetClosestJets kMaxJets jet0 DeltaR s iDebug in
  inputs out = inputs s ∧ dims kMaxJets out ∧
  ∀ i, (i < kMaxJets)%nat →
    gen out i = (if decide (1 ≤ nGenJets s ∧ Z.of_nat i < nRecJets s)
                 then verdict_gen t (Z.to_nat (nGenJets s - 1)) i else -1) ∧
    rec out i = (if decide (Z.of_nat i < nGenJets s ∧ 1 ≤ nRecJets s)
                 then verdict_rec t i (Z.to_nat (nRecJets s - 1)) else -1).
Proof.
  intros Hwf. pose proof Hwf as (Hd & HnG & HnR). cbv zeta.
  unfold GetClosestJets. rewrite (init_spec s Hd). simpl.
  set (t0 := St _ _ _ _ _ _ _ _).
  assert (dims kMaxJets t0 ∧
          ∀ i, (i < kMaxJets)%nat → gen t0 i = -1 ∧ rec t0 i = -1) as [Hd0 H0].
  { unfold dims, dims2; simpl. rewrite !length_replicate. split_and!; try done.
    - apply Forall_replicate, length_replicate.
    - intros i Hi. by rewrite !lookup_total_replicate_2. }
  destruct (Z.eqb_spec (nRecJets s) 0) as [HR0|HR0];
    [|destruct (Z.eqb_spec (nGenJets s) 0) as [HG0|HG0]].
  - split_and!; [done|done|]. intros i Hi. rewrite !decide_False by lia. by apply H0.
  - split_and!; [done|done|]. intros i Hi. rewrite !decide_False by lia. by apply H0.
  - destruct (passes_spec s Hwf) as (Hin & Hdt & Hall). cbv zeta in Hin, Hdt, Hall.
    assert (passes kMaxJets jet0 DeltaR s = backward_pass jet0 DeltaR (forward_pass jet0 DeltaR t0))
      as Hp by (unfold passes; by rewrite (init_spec s Hd)).
    rewrite <- Hp. set (t := passes kMaxJets jet0 DeltaR s) in *.
    assert (nGenJets t = nGenJets s ∧ nRecJets t = nRecJets s) as [HG HR].
    { unfold inputs in Hin. split; congruence. }
    destruct Hdt as (Hlg & Hlr & Hd2).
    destruct (consensus_rows_spec (Z.to_nat (nGenJets t)) t)
      as (Hin' & Hf & _ & Hlg' & Hlr' & Hgen & Hrec); [lia|lia|].
    cbv zeta in *. unfold consensus_pass.
    set (out := for_ (Z.to_nat (nGenJets t)) consensus_row t) in *.
    split_and!; [congruence| |].
    { unfold dims. rewrite Hlg', Hlr', Hf. done. }
    intros i Hi. rewrite Hgen, Hrec, HG, HR.
    destruct (Hall i i Hi Hi) as (Hri & Hgi & _).
    replace (Z.to_nat (nGenJets s) - 1)%nat with (Z.to_nat (nGenJets s - 1)) by lia.
    replace (Z.to_nat (nRecJets s) - 1)%nat with (Z.to_nat (nRecJets s - 1)) by lia.
    split; repeat case_decide; (done || lia).
Qed.

(** ** What the routine reads, and how often it measures a distance *)

Lemma init_inputs s :
  inputs (init kMaxJets s) = inputs s ∧ nDeltaR (init kMaxJets s) = nDeltaR s.
Proof.
  assert ((λ t, (inputs t, nDeltaR t)) (init kMaxJets s) = (inputs s, nDeltaR s)) as H.
  { unfold init. apply (for__preserves (λ t, (inputs t, nDeltaR t))).
    intros i t. unfold init_row.
    rewrite (for__preserves (λ t, (inputs t, nDeltaR t))); done. }
  split; [exact (f_equal fst H)|exact (f_equal snd H)].
Qed.

Lemma forward_row_inputs (ig : nat) t :
  let t' := forward_row jet0 DeltaR ig t in
  inputs t' = inputs t ∧ nDeltaR t' = (Z.to_nat (nRecJets t) + nDeltaR t)%nat.
Proof.
  cbv zeta. unfold forward_row.
  pose proof (for__ind (λ n (sd : st AliAODJet * float),
    inputs sd.1 = inputs t ∧ nDeltaR sd.1 = (n + nDeltaR t)%nat)
    (Z.to_nat (nRecJets t)) (forward_cell jet0 DeltaR ig) (t, maxDist)) as [Hin Hc].
  - done.
  - intros ir [u e] _ [Hin Hc]. unfold forward_cell. simpl in *.
    case_match; simpl; split; (done || lia).
  - by case_match.
Qed.

Lemma backward_col_inputs (ir : nat) t :
  let t' := backward_col jet0 DeltaR ir t in
  inputs t' = inputs t ∧ nDeltaR t' = (Z.to_nat (nGenJets t) + nDeltaR t)%nat.
Proof.
  cbv zeta. unfold backward_col.
  pose proof (for__ind (λ n (sd : st AliAODJet * float),
    inputs sd.1 = inputs t ∧ nDeltaR sd.1 = (n + nDeltaR t)%nat)
    (Z.to_nat (nGenJets t)) (backward_cell jet0 DeltaR ir) (t, maxDist)) as [Hin Hc].
  - done.
  - intros ig [u e] _ [Hin Hc]. unfold backward_cell. simpl in *.
    case_match; simpl; split; (done || lia).
  - by case_match.
Qed.

Lemma forward_pass_inputs t :
  let t' := forward_pass jet0 DeltaR t in
  inputs t' = inputs t ∧
  nDeltaR t' = (Z.to_nat (nGenJets t) * Z.to_nat (nRecJets t) + nDeltaR t)%nat.
Proof.
  cbv zeta. unfold forward_pass.
  apply (for__ind (λ n u,
    inputs u = inputs t ∧ nDeltaR u = (n * Z.to_nat (nRecJets t) + nDeltaR t)%nat)).
  - done.
  - intros ig u _ [Hin Hc]. destruct (forward_row_inputs ig u) as [Hin' Hc'].
    cbv zeta in *. rewrite Hin', Hc', Hc.
    assert (nRecJets u = nRecJets t) as -> by (unfold inputs in Hin; congruence).
    split; [done|lia].
Qed.

Lemma backward_pass_inputs t :
  let t' := backward_pass jet0 DeltaR t in
  inputs t' = inputs t ∧
  nDeltaR t' = (Z.to_nat (nRecJets t) * Z.to_nat (nGenJets t) + nDeltaR t)%nat.
Proof.
  cbv zeta. unfold backward_pass.
  apply (for__ind (λ n u,
    inputs u = inputs t ∧ nDeltaR u = (n * Z.to_nat (nGenJets t) + nDeltaR t)%nat)).
  - done.
  - intros ir u _ [Hin Hc]. destruct (backward_col_inputs ir u) as [Hin' Hc'].
    cbv zeta in *. rewrite Hin', Hc', Hc.
    assert (nGenJets u = nGenJets t) as -> by (unfold inputs in Hin; congruence).
    split; [done|lia].
Qed.

Lemma consensus_pass_inputs t :
  let t' := consensus_pass t in
  inputs t' = inputs t ∧ nDeltaR t' = nDeltaR t.
Proof.
  assert ((λ t, (inputs t, nDeltaR t)) (consensus_pass t) = (inputs t, nDeltaR t)) as H.
  { unfold consensus_pass. apply (for__preserves (λ t, (inputs t, nDeltaR t))).
    intros i u. unfold consensus_row.
    apply (for__preserves (λ t, (inputs t, nDeltaR t))).
    intros j v. unfold consensus_cell. by case_match. }
  split; [exact (f_equal fst H)|exact (f_equal snd H)].
Qed.


(** ** The statements about the result *)

(** C5. With an empty sequence on either side the routine returns right
    after the reset: every slot of both index buffers holds -1, and the
    number of distances measured is the one at entry. *)
Theorem GetClosestJets_empty s (iDebug : Z) :
  dims kMaxJets s →
  nGenJets s = 0 ∨ nRecJets s = 0 →
  let out := GetClosestJets kMaxJets jet0 DeltaR s iDebug in
  out = init kMaxJets s ∧
  iGenIndex out = replicate kMaxJets (-1) ∧
  iRecIndex out = replicate kMaxJets (-1) ∧
  nDeltaR out = nDeltaR s.
Proof.
  intros Hd Hz. cbv zeta.
  assert (GetClosestJets kMaxJets jet0 DeltaR s iDebug = init kMaxJets s) as ->.
  { unfold GetClosestJets. cbv zeta. destruct (init_inputs s) as [Hin _].
    assert (nGenJets (init kMaxJets s) = nGenJets s ∧
            nRecJets (init kMaxJets s) = nRecJets s) as [-> ->]
      by (unfold inputs in Hin; split; congruence).
    destruct Hz as [-> | ->]; [|done]. by destruct (nRecJets s =? 0). }
  by rewrite (init_spec s Hd).
Qed.

(** C7. The reset at entry leaves -1 in all [kMaxJets] slots of both index
    buffers whatever they held, and in the result every slot at or beyond
    the count of its side still holds -1. *)
Theorem GetClosestJets_reset s (iDebug : Z) :
  wf kMaxJets s →
  let s0 := init kMaxJets s in
  let out := GetClosestJets kMaxJets jet0 DeltaR s iDebug in
  iGenIndex s0 = replicate kMaxJets (-1) ∧
  iRecIndex s0 = replicate kMaxJets (-1) ∧
  ∀ i, (i < kMaxJets)%nat →
    (nRecJets s ≤ Z.of_nat i → iGenIndex out !! i = Some (-1)) ∧
    (nGenJets s ≤ Z.of_nat i → iRecIndex out !! i = Some (-1)).
Proof.
  intros Hwf. cbv zeta. rewrite (init_spec s (proj1 Hwf)). simpl.
  split_and!; [done|done|]. intros i Hi.
  destruct (GetClosestJets_slots s iDebug Hwf) as (_ & (Hlg & Hlr & _) & Hall).
  cbv zeta in *. destruct (Hall i Hi) as [Hg Hr].
  split; intros Hge.
  - rewrite list_lookup_lookup_total_lt by lia. rewrite Hg.
    rewrite decide_False; [done|lia].
  - rewrite list_lookup_lookup_total_lt by lia. rewrite Hr.
    rewrite decide_False; [done|lia].
Qed.

(** C8. The routine leaves both jet arrays and both counts as it found
    them. *)
Theorem GetClosestJets_frame s (iDebug : Z) :
  let out := GetClosestJets kMaxJets jet0 DeltaR s iDebug in
  genJets out = genJets s ∧ nGenJets out = nGenJets s ∧
  recJets out = recJets s ∧ nRecJets out = nRecJets s.
Proof.
  cbv zeta.
  assert (inputs (GetClosestJets kMaxJets jet0 DeltaR s iDebug) = inputs s) as H.
  { unfold GetClosestJets. cbv zeta. destruct (init_inputs s) as [Hin _].
    repeat case_match; try done.
    rewrite (proj1 (consensus_pass_inputs _)), (proj1 (backward_pass_inputs _)),
      (proj1 (forward_pass_inputs _)). done. }
  unfold inputs in H. by injection H.
Qed.

(** C2. With at least one jet on each side, a slot of the result below the
    count holds the verdict of the last cell of the loop nest that touched
    it: the last row for [iGenIndex], the last column for [iRecIndex]. *)
Theorem GetClosestJets_last_cell s (iDebug : Z) :
  wf kMaxJets s → 1 ≤ nGenJets s → 1 ≤ nRecJets s →
  let t := passes kMaxJets jet0 DeltaR s in
  let out := GetClosestJets kMaxJets jet0 DeltaR s iDebug in
  let gl := Z.to_nat (nGenJets s - 1) in
  let rl := Z.to_nat (nRecJets s - 1) in
  (∀ r, Z.of_nat r < nRecJets s →
     iGenIndex out !! r = Some (if flag t gl r =? 3 then nGenJets s - 1 else -1)) ∧
  (∀ g, Z.of_nat g < nGenJets s →
     iRecIndex out !! g = Some (if flag t g rl =? 3 then nRecJets s - 1 else -1)).
Proof.
  intros Hwf HG HR. cbv zeta.
  destruct (GetClosestJets_slots s iDebug Hwf) as (_ & (Hlg & Hlr & _) & Hall).
  cbv zeta in *. destruct Hwf as (_ & HGk & HRk).
  split.
  - intros r Hr. destruct (Hall r) as [Hg _]; [lia|].
    rewrite list_lookup_lookup_total_lt by lia. rewrite Hg.
    rewrite decide_True by lia. unfold verdict_gen.
    rewrite Z2Nat.id by lia. done.
  - intros g Hg. destruct (Hall g) as [_ Hr]; [lia|].
    rewrite list_lookup_lookup_total_lt by lia. rewrite Hr.
    rewrite decide_True by lia. unfold verdict_rec.
    rewrite Z2Nat.id by lia. done.
Qed.

(** C4. A cell of the sub-grid whose flag is not 3, that is whose row and
    column did not choose each other, is never reported as a pair; and when
    no cell of the sub-grid carries 3, as for crossed choices without any
    reciprocal agreement, every slot of the result holds -1. *)
Theorem GetClosestJets_rejects_non_mutual s (iDebug : Z) :
  wf kMaxJets s →
  let t := passes kMaxJets jet0 DeltaR s in
  let out := GetClosestJets kMaxJets jet0 DeltaR s iDebug in
  (∀ g r, Z.of_nat g < nGenJets s → Z.of_nat r < nRecJets s →
     (flag t g r = 3 ↔ rec t g = Z.of_nat r ∧ gen t r = Z.of_nat g) ∧
     (flag t g r ≠ 3 →
      iRecIndex out !! g ≠ Some (Z.of_nat r) ∧
      iGenIndex out !! r ≠ Some (Z.of_nat g))) ∧
  ((∀ g r, Z.of_nat g < nGenJets s → Z.of_nat r < nRecJets s → flag t g r ≠ 3) →
   ∀ i, (i < kMaxJets)%nat →
     iGenIndex out !! i = Some (-1) ∧ iRecIndex out !! i = Some (-1)).
Proof.
  intros Hwf. cbv zeta.
  destruct (GetClosestJets_slots s iDebug Hwf) as (_ & (Hlg & Hlr & _) & Hall).
  cbv zeta in *. pose proof Hwf as (_ & HGk & HRk).
  split.
  - intros g r Hg Hr. split; [apply iFlag_3_iff_mutual; [done|lia|lia]|].
    intros Hne. destruct (Hall g) as [_ Hrec]; [lia|].
    destruct (Hall r) as [Hgen _]; [lia|].
    rewrite !list_lookup_lookup_total_lt by lia. rewrite Hrec, Hgen.
    rewrite !decide_True by lia. unfold verdict_rec, verdict_gen.
    split; intros [= Heq].
    + destruct (Z.eqb_spec (flag (passes kMaxJets jet0 DeltaR s) g
                              (Z.to_nat (nRecJets s - 1))) 3) as [H3|H3]; [|lia].
      apply Hne. rewrite <- H3. f_equal. lia.
    + destruct (Z.eqb_spec (flag (passes kMaxJets jet0 DeltaR s)
                              (Z.to_nat (nGenJets s - 1)) r) 3) as [H3|H3]; [|lia].
      apply Hne. rewrite <- H3. f_equal. lia.
  - intros Hno i Hi. destruct (Hall i Hi) as [Hgen Hrec].
    rewrite !list_lookup_lookup_total_lt by lia. rewrite Hrec, Hgen.
    unfold verdict_rec, verdict_gen. split; f_equal.
    + destruct (decide (1 ≤ nGenJets s ∧ Z.of_nat i < nRecJets s)) as [Hc|Hc]; [|done].
      destruct (Z.eqb_spec (flag (passes kMaxJets jet0 DeltaR s)
                              (Z.to_nat (nGenJets s - 1)) i) 3) as [H3|H3]; [|done].
      exfalso. revert H3. apply Hno; lia.
    + destruct (decide (Z.of_nat i < nGenJets s ∧ 1 ≤ nRecJets s)) as [Hc|Hc]; [|done].
      destruct (Z.eqb_spec (flag (passes kMaxJets jet0 DeltaR s) i
                              (Z.to_nat (nRecJets s - 1))) 3) as [H3|H3]; [|done].
      exfalso. revert H3. apply Hno; lia.
Qed.

(** C9. Every entry of the result other than -1 is an index below the count
    of the other side, and no index occurs in two slots of the same
    buffer. *)
Theorem GetClosestJets_range_injective s (iDebug : Z) :
  wf kMaxJets s →
  let out := GetClosestJets kMaxJets jet0 DeltaR s iDebug in
  (∀ r v, iGenIndex out !! r = Some v → v ≠ -1 → 0 ≤ v < nGenJets s) ∧
  (∀ g v, iRecIndex out !! g = Some v → v ≠ -1 → 0 ≤ v < nRecJets s) ∧
  (∀ r r' v, iGenIndex out !! r = Some v → iGenIndex out !! r' = Some v →
     v ≠ -1 → r = r') ∧
  (∀ g g' v, iRecIndex out !! g = Some v → iRecIndex out !! g' = Some v →
     v ≠ -1 → g = g').
Proof.
  intros Hwf. cbv zeta.
  destruct (GetClosestJets_slots s iDebug Hwf) as (_ & (Hlg & Hlr & _) & Hall).
  cbv zeta in *. pose proof Hwf as (_ & HGk & HRk).
  set (t := passes kMaxJets jet0 DeltaR s) in *.
  set (out := GetClosestJets kMaxJets jet0 DeltaR s iDebug) in *.
  assert (∀ r v, iGenIndex out !! r = Some v → v ≠ -1 →
            (r < kMaxJets)%nat ∧ 1 ≤ nGenJets s ∧ v = nGenJets s - 1 ∧
            flag t (Z.to_nat (nGenJets s - 1)) r = 3) as Hgen.
  { intros r v Hr Hv. assert (r < kMaxJets)%nat as Hrk
      by (apply lookup_lt_Some in Hr; lia).
    apply list_lookup_total_correct in Hr. destruct (Hall r Hrk) as [Hg _].
    rewrite Hr in Hg. unfold verdict_gen in Hg.
    case_decide; [|done].
    destruct (Z.eqb_spec (flag t (Z.to_nat (nGenJets s - 1)) r) 3); [|done].
    split_and!; [done|lia|lia|done]. }
  assert (∀ g v, iRecIndex out !! g = Some v → v ≠ -1 →
            (g < kMaxJets)%nat ∧ 1 ≤ nRecJets s ∧ v = nRecJets s - 1 ∧
            flag t g (Z.to_nat (nRecJets s - 1)) = 3) as Hrec.
  { intros g v Hg Hv. assert (g < kMaxJets)%nat as Hgk
      by (apply lookup_lt_Some in Hg; lia).
    apply list_lookup_total_correct in Hg. destruct (Hall g Hgk) as [_ Hr].
    rewrite Hg in Hr. unfold verdict_rec in Hr.
    case_decide; [|done].
    destruct (Z.eqb_spec (flag t g (Z.to_nat (nRecJets s - 1))) 3); [|done].
    split_and!; [done|lia|lia|done]. }
  split_and!.
  - intros r v Hr Hv. destruct (Hgen r v Hr Hv) as (_ & ? & -> & _). lia.
  - intros g v Hg Hv. destruct (Hrec g v Hg Hv) as (_ & ? & -> & _). lia.
  - intros r r' v Hr Hr' Hv.
    destruct (Hgen r v Hr Hv) as (Hrk & HG & _ & H3).
    destruct (Hgen r' v Hr' Hv) as (Hrk' & _ & _ & H3').
    apply (iFlag_3_iff_mutual s) in H3 as [H3 _]; [|done|lia|done].
    apply (iFlag_3_iff_mutual s) in H3' as [H3' _]; [|done|lia|done].
    fold t in H3, H3'. lia.
  - intros g g' v Hg Hg' Hv.
    destruct (Hrec g v Hg Hv) as (Hgk & HR & _ & H3).
    destruct (Hrec g' v Hg' Hv) as (Hgk' & _ & _ & H3').
    apply (iFlag_3_iff_mutual s) in H3 as [_ H3]; [|done|done|lia].
    apply (iFlag_3_iff_mutual s) in H3' as [_ H3']; [|done|done|lia].
    fold t in H3, H3'. lia.
Qed.

(** C1. The result is not symmetric: a generated jet other than the last
    one that is in mutual agreement with the last reconstructed jet keeps
    that partner in [iRecIndex], while the partner's slot of [iGenIndex]
    is overwritten with -1 by a later row of the loop nest. *)
Theorem GetClosestJets_one_sided s (iDebug : Z) (g : nat) :
  wf kMaxJets s → 1 ≤ nRecJets s → Z.of_nat g < nGenJets s - 1 →
  let t := passes kMaxJets jet0 DeltaR s in
  let out := GetClosestJets kMaxJets jet0 DeltaR s iDebug in
  let rl := Z.to_nat (nRecJets s - 1) in
  flag t g rl = 3 →
  iRecIndex out !! g = Some (nRecJets s - 1) ∧ iGenIndex out !! rl = Some (-1).
Proof.
  intros Hwf HR Hg. cbv zeta. intros H3.
  destruct (GetClosestJets_slots s iDebug Hwf) as (_ & (Hlg & Hlr & _) & Hall).
  cbv zeta in *. pose proof Hwf as (_ & HGk & HRk).
  destruct (Hall g) as [_ Hrec]; [lia|].
  destruct (Hall (Z.to_nat (nRecJets s - 1))) as [Hgen _]; [lia|].
  rewrite !list_lookup_lookup_total_lt by lia. rewrite Hrec, Hgen.
  rewrite !decide_True by lia. unfold verdict_rec, verdict_gen.
  rewrite H3. simpl. split; [f_equal; lia|].
  destruct (Z.eqb_spec (flag (passes kMaxJets jet0 DeltaR s)
              (Z.to_nat (nGenJets s - 1)) (Z.to_nat (nRecJets s - 1))) 3) as [H3'|]; [|done].
  apply (iFlag_3_iff_mutual s) in H3 as [_ H3]; [|done|lia|lia].
  apply (iFlag_3_iff_mutual s) in H3' as [_ H3']; [|done|lia|lia].
  lia.
Qed.

(** A turn of the first pass leaves the slots of the other source jets. *)
Lemma forward_row_others (ig : nat) t :
  let t' := forward_row jet0 DeltaR ig t in
  length (iRecIndex t') = length (iRecIndex t) ∧
  ∀ g, g ≠ ig → rec t' g = rec t g.
Proof.
  cbv zeta. unfold forward_row.
  pose proof (for__ind (λ n (sd : st AliAODJet * float),
    length (iRecIndex sd.1) = length (iRecIndex t) ∧
    ∀ g, g ≠ ig → rec sd.1 g = rec t g)
    (Z.to_nat (nRecJets t)) (forward_cell jet0 DeltaR ig) (t, maxDist)) as [Hl Ho].
  - done.
  - intros ir [u e] _ [Hl Ho]. unfold forward_cell. simpl in *.
    case_match; simpl; [|done]. rewrite length_insert. split; [done|].
    intros g Hne. rewrite list_lookup_total_insert_ne by done. by apply Ho.
  - by case_match.
Qed.

Lemma forward_cell_taken (ig ir : nat) t (d : float) :
  (dR_of jet0 DeltaR t ig ir <? d)%float = true →
  forward_cell jet0 DeltaR ig ir (t, d) =
    (set_iRecIndex (<[ig := Z.of_nat ir]> (iRecIndex t)) (tick t),
     to_Float_t (dR_of jet0 DeltaR t ig ir)).
Proof. intros H. unfold forward_cell. simpl. by rewrite H. Qed.

(** C6. The bound of a scan is a [Float_t]: once a first candidate is taken
    the bound is the single precision value of its distance, and a second
    candidate whose distance lies under that value takes its place, be it at
    the same distance or farther. *)
Theorem forward_pass_later_candidate_replaces s :
  wf kMaxJets s → nRecJets s = 2 → 1 ≤ nGenJets s →
  (dR_of jet0 DeltaR s 0 0 <? maxDist)%float = true →
  (dR_of jet0 DeltaR s 0 1 <? to_Float_t (dR_of jet0 DeltaR s 0 0))%float = true →
  iRecIndex (forward_pass jet0 DeltaR (init kMaxJets s)) !! 0%nat = Some 1.
Proof.
  intros (Hd & HGk & _) HR HG H0 H1. rewrite (init_spec s Hd).
  set (t0 := St _ _ _ _ _ _ _ _). unfold forward_pass.
  assert (0 < kMaxJets)%nat as Hk by lia.
  pose proof (for__ind (λ n u,
    inputs u = inputs t0 ∧ length (iRecIndex u) = kMaxJets ∧
    match n with O => u = t0 | S _ => rec u 0%nat = 1 end)
    (Z.to_nat (nGenJets t0)) (forward_row jet0 DeltaR) t0) as (_ & Hl & Hrec).
  - split_and!; [done| |done]. simpl. by rewrite length_replicate.
  - intros ig u _ (Hin & Hl & Hu).
    destruct (forward_row_inputs ig u) as [Hin' _].
    destruct (forward_row_others ig u) as [Hl' Ho]. cbv zeta in *.
    split_and!; [congruence|congruence|].
    destruct ig as [|ig]; [|rewrite Ho by done; done].
    subst u. unfold forward_row. simpl nRecJets. rewrite HR.
    change (Z.to_nat 2) with 2%nat. rewrite !for__S, for__0.
    rewrite (forward_cell_taken 0 0 t0 maxDist) by exact H0.
    rewrite forward_cell_taken by exact H1. simpl.
    rewrite !list_lookup_total_insert_eq
      by (rewrite ?length_insert, length_replicate; lia).
    simpl. rewrite list_lookup_total_insert_eq
      by (rewrite ?length_insert, length_replicate; lia). done.
  - destruct (Z.to_nat (nGenJets t0)) as [|m] eqn:Hm; [simpl in Hm; lia|].
    rewrite list_lookup_lookup_total_lt by lia. by rewrite Hrec.
Qed.

(** ** Further properties of the passes *)

Lemma dR_of_inputs t u (ig ir : nat) :
  inputs u = inputs t → dR_of jet0 DeltaR u ig ir = dR_of jet0 DeltaR t ig ir.
Proof. unfold inputs, dR_of. intros [= -> _ -> _]. done. Qed.

Lemma backward_col_others (ir : nat) t :
  let t' := backward_col jet0 DeltaR ir t in
  length (iGenIndex t') = length (iGenIndex t) ∧
  ∀ r, r ≠ ir → gen t' r = gen t r.
Proof.
  cbv zeta. unfold backward_col.
  pose proof (for__ind (λ n (sd : st AliAODJet * float),
    length (iGenIndex sd.1) = length (iGenIndex t) ∧
    ∀ r, r ≠ ir → gen sd.1 r = gen t r)
    (Z.to_nat (nGenJets t)) (backward_cell jet0 DeltaR ir) (t, maxDist)) as [Hl Ho].
  - done.
  - intros ig [u e] _ [Hl Ho]. unfold backward_cell. simpl in *.
    case_match; simpl; [|done]. rewrite length_insert. split; [done|].
    intros r Hne. rewrite list_lookup_total_insert_ne by done. by apply Ho.
  - by case_match.
Qed.

Lemma forward_pass_iGenIndex t :
  iGenIndex (forward_pass jet0 DeltaR t) = iGenIndex t.
Proof.
  unfold forward_pass. apply (for__preserves iGenIndex). intros ig u.
  unfold forward_row.
  assert (iGenIndex (for_ (Z.to_nat (nRecJets u)) (forward_cell jet0 DeltaR ig)
                       (u, maxDist)).1 = iGenIndex u) as H.
  { apply (for__preserves (λ sd : st AliAODJet * float, iGenIndex sd.1)).
    intros ir [v e]. unfold forward_cell. simpl. by case_match. }
  by case_match.
Qed.

Lemma backward_pass_iRecIndex t :
  iRecIndex (backward_pass jet0 DeltaR t) = iRecIndex t.
Proof.
  unfold backward_pass. apply (for__preserves iRecIndex). intros ir u.
  unfold backward_col.
  assert (iRecIndex (for_ (Z.to_nat (nGenJets u)) (backward_cell jet0 DeltaR ir)
                       (u, maxDist)).1 = iRecIndex u) as H.
  { apply (for__preserves (λ sd : st AliAODJet * float, iRecIndex sd.1)).
    intros ig [v e]. unfold backward_cell. simpl. by case_match. }
  by case_match.
Qed.

(** A scan started on a free slot records a partner exactly when one of the
    candidates it saw lies under the initial bound. *)
Lemma forward_row_threshold (ig : nat) t :
  (ig < length (iRecIndex t))%nat → rec t ig = -1 →
  rec (forward_row jet0 DeltaR ig t) ig ≠ -1 ↔
  ∃ r, Z.of_nat r < nRecJets t ∧ (dR_of jet0 DeltaR t ig r <? maxDist)%float = true.
Proof.
  intros Hig Hm1.
  assert (let sd := for_ (Z.to_nat (nRecJets t)) (forward_cell jet0 DeltaR ig) (t, maxDist) in
          rec sd.1 ig ≠ -1 ↔
          ∃ r, (r < Z.to_nat (nRecJets t))%nat ∧
               (dR_of jet0 DeltaR t ig r <? maxDist)%float = true) as Hscan.
  { cbv zeta.
    pose proof (for__ind (λ n (sd : st AliAODJet * float),
      inputs sd.1 = inputs t ∧ length (iRecIndex sd.1) = length (iRecIndex t) ∧
      ((rec sd.1 ig = -1 ∧ sd.2 = maxDist ∧
        ∀ r, (r < n)%nat → (dR_of jet0 DeltaR t ig r <? maxDist)%float = false) ∨
       (0 ≤ rec sd.1 ig ∧
        ∃ r, (r < n)%nat ∧ (dR_of jet0 DeltaR t ig r <? maxDist)%float = true)))
      (Z.to_nat (nRecJets t)) (forward_cell jet0 DeltaR ig) (t, maxDist))
      as (_ & _ & Hinv).
    - split_and!; [done|done|]. left. split_and!; [done|done|]. intros; lia.
    - intros ir [u e] _ (Hin & Hl & Hinv). simpl in *.
      unfold forward_cell. simpl.
      rewrite (dR_of_inputs t u) by done.
      destruct (dR_of jet0 DeltaR t ig ir <? e)%float eqn:Hlt; simpl.
      + rewrite length_insert. split_and!; [done|done|]. right.
        rewrite list_lookup_total_insert_eq by lia. split; [lia|].
        destruct Hinv as [(_ & -> & _)|(_ & r & Hr & Hb)].
        * exists ir. split; [lia|done].
        * exists r. split; [lia|done].
      + split_and!; [done|done|].
        destruct Hinv as [(Hm & -> & Hno)|(Hp & r & Hr & Hb)].
        * left. split_and!; [done|done|]. intros r Hr.
          destruct (decide (r = ir)) as [->|]; [done|]. apply Hno. lia.
        * right. split; [done|]. exists r. split; [lia|done].
    - destruct Hinv as [(Hm & _ & Hno)|(Hp & r & Hr & Hb)].
      + split; [done|]. intros (r & Hr & Hb). rewrite Hno in Hb by done. done.
      + split; [|lia]. intros _. by exists r. }
  cbv zeta in Hscan. unfold forward_row.
  set (sd := for_ (Z.to_nat (nRecJets t)) (forward_cell jet0 DeltaR ig) (t, maxDist)) in *.
  assert (rec (if 0 <=? rec sd.1 ig
               then set_iFlag (set2 (iFlag sd.1) ig (Z.to_nat (rec sd.1 ig))
                      (Int_t_add (get2 (iFlag sd.1) ig (Z.to_nat (rec sd.1 ig))) 1)) sd.1
               else sd.1) ig = rec sd.1 ig) as -> by (by case_match).
  rewrite Hscan. split; intros (r & Hr & Hb); exists r; (split; [lia|done]).
Qed.

Lemma backward_col_threshold (ir : nat) t :
  (ir < length (iGenIndex t))%nat → gen t ir = -1 →
  gen (backward_col jet0 DeltaR ir t) ir ≠ -1 ↔
  ∃ g, Z.of_nat g < nGenJets t ∧ (dR_of jet0 DeltaR t g ir <? maxDist)%float = true.
Proof.
  intros Hir Hm1.
  assert (let sd := for_ (Z.to_nat (nGenJets t)) (backward_cell jet0 DeltaR ir) (t, maxDist) in
          gen sd.1 ir ≠ -1 ↔
          ∃ g, (g < Z.to_nat (nGenJets t))%nat ∧
               (dR_of jet0 DeltaR t g ir <? maxDist)%float = true) as Hscan.
  { cbv zeta.
    pose proof (for__ind (λ n (sd : st AliAODJet * float),
      inputs sd.1 = inputs t ∧ length (iGenIndex sd.1) = length (iGenIndex t) ∧
      ((gen sd.1 ir = -1 ∧ sd.2 = maxDist ∧
        ∀ g, (g < n)%nat → (dR_of jet0 DeltaR t g ir <? maxDist)%float = false) ∨
       (0 ≤ gen sd.1 ir ∧
        ∃ g, (g < n)%nat ∧ (dR_of jet0 DeltaR t g ir <? maxDist)%float = true)))
      (Z.to_nat (nGenJets t)) (backward_cell jet0 DeltaR ir) (t, maxDist))
      as (_ & _ & Hinv).
    - split_and!; [done|done|]. left. split_and!; [done|done|]. intros; lia.
    - intros ig [u e] _ (Hin & Hl & Hinv). simpl in *.
      unfold backward_cell. simpl.
      rewrite (dR_of_inputs t u) by done.
      destruct (dR_of jet0 DeltaR t ig ir <? e)%float eqn:Hlt; simpl.
      + rewrite length_insert. split_and!; [done|done|]. right.
        rewrite list_lookup_total_insert_eq by lia. split; [lia|].
        destruct Hinv as [(_ & -> & _)|(_ & g & Hg & Hb)].
        * exists ig. split; [lia|done].
        * exists g. split; [lia|done].
      + split_and!; [done|done|].
        destruct Hinv as [(Hm & -> & Hno)|(Hp & g & Hg & Hb)].
        * left. split_and!; [done|done|]. intros g Hg.
          destruct (decide (g = ig)) as [->|]; [done|]. apply Hno. lia.
        * right. split; [done|]. exists g. split; [lia|done].
    - destruct Hinv as [(Hm & _ & Hno)|(Hp & g & Hg & Hb)].
      + split; [done|]. intros (g & Hg & Hb). rewrite Hno in Hb by done. done.
      + split; [|lia]. intros _. by exists g. }
  cbv zeta in Hscan. unfold backward_col.
  set (sd := for_ (Z.to_nat (nGenJets t)) (backward_cell jet0 DeltaR ir) (t, maxDist)) in *.
  assert (gen (if 0 <=? gen sd.1 ir
               then set_iFlag (set2 (iFlag sd.1) (Z.to_nat (gen sd.1 ir)) ir
                      (Int_t_add (get2 (iFlag sd.1) (Z.to_nat (gen sd.1 ir)) ir) 2)) sd.1
               else sd.1) ir = gen sd.1 ir) as -> by (by case_match).
  rewrite Hscan. split; intros (g & Hg & Hb); exists g; (split; [lia|done]).
Qed.

Lemma forward_pass_threshold t :
  length (iRecIndex t) = kMaxJets → nGenJets t ≤ Z.of_nat kMaxJets →
  (∀ g, (g < kMaxJets)%nat → rec t g = -1) →
  ∀ g, Z.of_nat g < nGenJets t →
    rec (forward_pass jet0 DeltaR t) g ≠ -1 ↔
    ∃ r, Z.of_nat r < nRecJets t ∧ (dR_of jet0 DeltaR t g r <? maxDist)%float = true.
Proof.
  intros Hl HG Hfree. unfold forward_pass.
  pose proof (for__ind (λ n u,
    inputs u = inputs t ∧ length (iRecIndex u) = kMaxJets ∧
    (∀ g, (g < n)%nat →
       rec u g ≠ -1 ↔
       ∃ r, Z.of_nat r < nRecJets t ∧ (dR_of jet0 DeltaR t g r <? maxDist)%float = true) ∧
    (∀ g, (n ≤ g < kMaxJets)%nat → rec u g = -1))
    (Z.to_nat (nGenJets t)) (forward_row jet0 DeltaR) t) as (_ & _ & Hdone & _).
  - split_and!; [done|done| |]; [intros; lia|]. intros g Hg. apply Hfree. lia.
  - intros ig u Hig (Hin & Hlu & Hdone & Hrest).
    destruct (forward_row_inputs ig u) as [Hin' _].
    destruct (forward_row_others ig u) as [Hl' Ho]. cbv zeta in *.
    assert (nRecJets u = nRecJets t) as HR by (unfold inputs in Hin; congruence).
    split_and!; [congruence|congruence| |].
    + intros g Hg. destruct (decide (g = ig)) as [->|Hne].
      * rewrite forward_row_threshold; [|lia|apply Hrest; lia]. rewrite HR.
        split; intros (r & Hr & Hb); exists r; (split; [done|]);
          [by rewrite <- (dR_of_inputs t u)|by rewrite (dR_of_inputs t u)].
      * rewrite Ho by done. apply Hdone. lia.
    + intros g Hg. rewrite Ho by lia. apply Hrest. lia.
  - intros g Hg. apply Hdone. lia.
Qed.

Lemma backward_pass_threshold t :
  length (iGenIndex t) = kMaxJets → nRecJets t ≤ Z.of_nat kMaxJets →
  (∀ r, (r < kMaxJets)%nat → gen t r = -1) →
  ∀ r, Z.of_nat r < nRecJets t →
    gen (backward_pass jet0 DeltaR t) r ≠ -1 ↔
    ∃ g, Z.of_nat g < nGenJets t ∧ (dR_of jet0 DeltaR t g r <? maxDist)%float = true.
Proof.
  intros Hl HR Hfree. unfold backward_pass.
  pose proof (for__ind (λ n u,
    inputs u = inputs t ∧ length (iGenIndex u) = kMaxJets ∧
    (∀ r, (r < n)%nat →
       gen u r ≠ -1 ↔
       ∃ g, Z.of_nat g < nGenJets t ∧ (dR_of jet0 DeltaR t g r <? maxDist)%float = true) ∧
    (∀ r, (n ≤ r < kMaxJets)%nat → gen u r = -1))
    (Z.to_nat (nRecJets t)) (backward_col jet0 DeltaR) t) as (_ & _ & Hdone & _).
  - split_and!; [done|done| |]; [intros; lia|]. intros r Hr. apply Hfree. lia.
  - intros ir u Hir (Hin & Hlu & Hdone & Hrest).
    destruct (backward_col_inputs ir u) as [Hin' _].
    destruct (backward_col_others ir u) as [Hl' Ho]. cbv zeta in *.
    assert (nGenJets u = nGenJets t) as HG by (unfold inputs in Hin; congruence).
    split_and!; [congruence|congruence| |].
    + intros r Hr. destruct (decide (r = ir)) as [->|Hne].
      * rewrite backward_col_threshold; [|lia|apply Hrest; lia]. rewrite HG.
        split; intros (g & Hg & Hb); exists g; (split; [done|]);
          [by rewrite <- (dR_of_inputs t u)|by rewrite (dR_of_inputs t u)].
      * rewrite Ho by done. apply Hdone. lia.
    + intros r Hr. rewrite Ho by lia. apply Hrest. lia.
  - intros r Hr. apply Hdone. lia.
Qed.

(** The partners held by the state on which the last loop nest starts. *)
Lemma passes_threshold s :
  wf kMaxJets s →
  let t := passes kMaxJets jet0 DeltaR s in
  (∀ g, Z.of_nat g < nGenJets s →
     rec t g ≠ -1 ↔
     ∃ r, Z.of_nat r < nRecJets s ∧ (dR_of jet0 DeltaR s g r <? maxDist)%float = true) ∧
  (∀ r, Z.of_nat r < nRecJets s →
     gen t r ≠ -1 ↔
     ∃ g, Z.of_nat g < nGenJets s ∧ (dR_of jet0 DeltaR s g r <? maxDist)%float = true).
Proof.
  intros (Hd & HG & HR). cbv zeta. unfold passes. rewrite (init_spec s Hd).
  set (t0 := St _ _ _ _ _ _ _ _).
  assert (∀ i, (i < kMaxJets)%nat → gen t0 i = -1 ∧ rec t0 i = -1) as H0.
  { intros i Hi. simpl. by rewrite !lookup_total_replicate_2. }
  split.
  - intros g Hg. rewrite backward_pass_iRecIndex.
    rewrite (forward_pass_threshold t0); [done| |done| |done].
    + simpl. by rewrite length_replicate.
    + intros i Hi. by apply H0.
  - intros r Hr.
    destruct (forward_pass_inputs t0) as [Hin _]. cbv zeta in Hin.
    rewrite (backward_pass_threshold (forward_pass jet0 DeltaR t0)).
    + assert (nGenJets (forward_pass jet0 DeltaR t0) = nGenJets s) as ->
        by (unfold inputs in Hin; simpl in Hin; congruence).
      split; intros (g & Hg & Hb); exists g; (split; [done|]).
      * by rewrite (dR_of_inputs t0) in Hb.
      * by rewrite (dR_of_inputs t0).
    + rewrite forward_pass_iGenIndex. simpl. by rewrite length_replicate.
    + unfold inputs in Hin; simpl in Hin. assert (nRecJets (forward_pass jet0 DeltaR t0) = nRecJets s) as -> by congruence. done.
    + intros i Hi. rewrite forward_pass_iGenIndex. by apply H0.
    + unfold inputs in Hin; simpl in Hin. assert (nRecJets (forward_pass jet0 DeltaR t0) = nRecJets s) as -> by congruence. done.
Qed.

(** ** Further statements about the result *)


(** X2. The result depends on the jets and the counts only: neither the
    content of the index buffers at the call nor what the stack left in the
    matrix nor the debug level has any influence. *)
Theorem GetClosestJets_fresh_start s s' (iDebug iDebug' : Z) :
  dims kMaxJets s → dims kMaxJets s' →
  inputs s = inputs s' → nDeltaR s = nDeltaR s' →
  GetClosestJets kMaxJets jet0 DeltaR s iDebug =
  GetClosestJets kMaxJets jet0 DeltaR s' iDebug'.
Proof.
  intros Hd Hd' Hin Hc. unfold GetClosestJets. cbv zeta.
  rewrite (init_spec s Hd), (init_spec s' Hd'), Hc.
  unfold inputs in Hin. injection Hin as -> -> -> ->. done.
Qed.

(** X3. In each direction a jet gets a partner exactly when one of the jets
    of the other side lies under the initial bound [maxDist]; a distance that
    does not compare below it, a NaN included, never gives a partner. *)
Theorem direction_pass_partner_iff_reach s :
  wf kMaxJets s →
  let t1 := forward_pass jet0 DeltaR (init kMaxJets s) in
  let t2 := backward_pass jet0 DeltaR t1 in
  (∀ g, Z.of_nat g < nGenJets s →
     rec t1 g ≠ -1 ↔
     ∃ r, Z.of_nat r < nRecJets s ∧ (dR_of jet0 DeltaR s g r <? maxDist)%float = true) ∧
  (∀ r, Z.of_nat r < nRecJets s →
     gen t2 r ≠ -1 ↔
     ∃ g, Z.of_nat g < nGenJets s ∧ (dR_of jet0 DeltaR s g r <? maxDist)%float = true).
Proof.
  intros Hwf. destruct (passes_threshold s Hwf) as [Hf Hb]. cbv zeta in *.
  unfold passes in Hf, Hb. split; [|done].
  intros g Hg. rewrite <- Hf by done. by rewrite backward_pass_iRecIndex.
Qed.

(** X4. When no pair of the sub-grid lies under the bound, every slot of both
    buffers holds -1 in the result. *)
Theorem GetClosestJets_out_of_reach s (iDebug : Z) :
  wf kMaxJets s →
  (∀ g r, Z.of_nat g < nGenJets s → Z.of_nat r < nRecJets s →
     (dR_of jet0 DeltaR s g r <? maxDist)%float = false) →
  let out := GetClosestJets kMaxJets jet0 DeltaR s iDebug in
  ∀ i, (i < kMaxJets)%nat →
    iGenIndex out !! i = Some (-1) ∧ iRecIndex out !! i = Some (-1).
Proof.
  intros Hwf Hfar. cbv zeta. intros i Hi.
  destruct (GetClosestJets_slots s iDebug Hwf) as (_ & (Hlg & Hlr & _) & Hall).
  destruct (passes_threshold s Hwf) as [Hf Hb].
  cbv zeta in *. pose proof Hwf as (_ & HGk & HRk).
  assert (∀ g r, Z.of_nat g < nGenJets s → Z.of_nat r < nRecJets s →
            flag (passes kMaxJets jet0 DeltaR s) g r ≠ 3) as Hno.
  { intros g r Hg Hr H3.
    apply (iFlag_3_iff_mutual s) in H3 as [H3 _]; [|done|lia|lia].
    assert (rec (passes kMaxJets jet0 DeltaR s) g ≠ -1) as Hne by lia.
    apply Hf in Hne as (r' & Hr' & Hb'); [|done].
    rewrite Hfar in Hb' by done. done. }
  destruct (Hall i Hi) as [Hgen Hrec].
  rewrite !list_lookup_lookup_total_lt by lia. rewrite Hgen, Hrec.
  unfold verdict_gen, verdict_rec. split; f_equal.
  - destruct (decide (1 ≤ nGenJets s ∧ Z.of_nat i < nRecJets s)) as [Hc|Hc]; [|done].
    destruct (Z.eqb_spec (flag (passes kMaxJets jet0 DeltaR s)
                (Z.to_nat (nGenJets s - 1)) i) 3) as [H3|H3]; [|done].
    exfalso. revert H3. apply Hno; lia.
  - destruct (decide (Z.of_nat i < nGenJets s ∧ 1 ≤ nRecJets s)) as [Hc|Hc]; [|done].
    destruct (Z.eqb_spec (flag (passes kMaxJets jet0 DeltaR s) i
                (Z.to_nat (nRecJets s - 1))) 3) as [H3|H3]; [|done].
    exfalso. revert H3. apply Hno; lia.
Qed.

(** X5. With one jet on each side the two are reported as a pair, each in the
    slot of the other, exactly when their distance lies under the bound;
    otherwise both slots hold -1. *)
Theorem GetClosestJets_single_pair s (iDebug : Z) :
  wf kMaxJets s → nGenJets s = 1 → nRecJets s = 1 →
  let out := GetClosestJets kMaxJets jet0 DeltaR s iDebug in
  let v := if (dR_of jet0 DeltaR s 0 0 <? maxDist)%float then 0 else -1 in
  iGenIndex out !! 0%nat = Some v ∧ iRecIndex out !! 0%nat = Some v.
Proof.
  intros Hwf HG HR. cbv zeta.
  destruct (GetClosestJets_slots s iDebug Hwf) as (_ & (Hlg & Hlr & _) & Hall).
  destruct (passes_threshold s Hwf) as [Hf Hb].
  destruct (passes_spec s Hwf) as (_ & _ & Hrange).
  cbv zeta in *. pose proof Hwf as (_ & HGk & HRk).
  assert (0 < kMaxJets)%nat as Hk by lia.
  destruct (Hall 0%nat Hk) as [Hgen Hrec].
  destruct (Hrange 0%nat 0%nat Hk Hk) as (Hr0 & Hg0 & _).
  specialize (Hf 0%nat). specialize (Hb 0%nat).
  rewrite HG, HR in *. change (Z.to_nat (1 - 1)) with 0%nat in *.
  rewrite !list_lookup_lookup_total_lt by lia. rewrite Hgen, Hrec.
  rewrite !decide_True by (simpl; lia).
  unfold verdict_gen, verdict_rec.
  set (t := passes kMaxJets jet0 DeltaR s) in *.
  destruct (dR_of jet0 DeltaR s 0 0 <? maxDist)%float eqn:Hlt.
  - assert (rec t 0%nat = 0 ∧ gen t 0%nat = 0) as H3.
    { split.
      - assert (rec t 0%nat ≠ -1); [|lia]. apply Hf; [simpl; lia|].
        exists 0%nat. split; [simpl; lia|done].
      - assert (gen t 0%nat ≠ -1); [|lia]. apply Hb; [simpl; lia|].
        exists 0%nat. split; [simpl; lia|done]. }
    apply (iFlag_3_iff_mutual s 0%nat 0%nat Hwf Hk Hk) in H3. fold t in H3.
    rewrite H3. done.
  - destruct (Z.eqb_spec (flag t 0%nat 0%nat) 3) as [H3|H3]; [|done].
    exfalso. apply (iFlag_3_iff_mutual s 0%nat 0%nat Hwf Hk Hk) in H3 as [H3 _].
    fold t in H3. assert (rec t 0%nat ≠ -1) as Hne by (simpl in H3; lia).
    apply Hf in Hne as (r & Hr & Hbb); [|simpl; lia].
    assert (r = 0%nat) as -> by lia. congruence.
Qed.

(** X6. At most one slot of each buffer differs from -1 in the result: the
    routine reports at most one reconstructed jet as matched, to the last
    generated jet, and at most one generated jet, to the last reconstructed
    jet. *)
Theorem GetClosestJets_at_most_one s (iDebug : Z) :
  wf kMaxJets s →
  let out := GetClosestJets kMaxJets jet0 DeltaR s iDebug in
  (∀ r r' v v', iGenIndex out !! r = Some v → iGenIndex out !! r' = Some v' →
     v ≠ -1 → v' ≠ -1 → r = r' ∧ v = nGenJets s - 1) ∧
  (∀ g g' v v', iRecIndex out !! g = Some v → iRecIndex out !! g' = Some v' →
     v ≠ -1 → v' ≠ -1 → g = g' ∧ v = nRecJets s - 1).
Proof.
  intros Hwf. cbv zeta.
  destruct (GetClosestJets_slots s iDebug Hwf) as (_ & (Hlg & Hlr & _) & Hall).
  cbv zeta in *. pose proof Hwf as (_ & HGk & HRk).
  set (t := passes kMaxJets jet0 DeltaR s) in *.
  set (out := GetClosestJets kMaxJets jet0 DeltaR s iDebug) in *.
  assert (∀ r v, iGenIndex out !! r = Some v → v ≠ -1 →
            (r < kMaxJets)%nat ∧ 1 ≤ nGenJets s ∧ v = nGenJets s - 1 ∧
            flag t (Z.to_nat (nGenJets s - 1)) r = 3) as Hgen.
  { intros r v Hr Hv. assert (r < kMaxJets)%nat as Hrk
      by (apply lookup_lt_Some in Hr; lia).
    apply list_lookup_total_correct in Hr. destruct (Hall r Hrk) as [Hg _].
    rewrite Hr in Hg. unfold verdict_gen in Hg.
    case_decide; [|done].
    destruct (Z.eqb_spec (flag t (Z.to_nat (nGenJets s - 1)) r) 3); [|done].
    split_and!; [done|lia|lia|done]. }
  assert (∀ g v, iRecIndex out !! g = Some v → v ≠ -1 →
            (g < kMaxJets)%nat ∧ 1 ≤ nRecJets s ∧ v = nRecJets s - 1 ∧
            flag t g (Z.to_nat (nRecJets s - 1)) = 3) as Hrec.
  { intros g v Hg Hv. assert (g < kMaxJets)%nat as Hgk
      by (apply lookup_lt_Some in Hg; lia).
    apply list_lookup_total_correct in Hg. destruct (Hall g Hgk) as [_ Hr].
    rewrite Hg in Hr. unfold verdict_rec in Hr.
    case_decide; [|done].
    destruct (Z.eqb_spec (flag t g (Z.to_nat (nRecJets s - 1))) 3); [|done].
    split_and!; [done|lia|lia|done]. }
  split.
  - intros r r' v v' Hr Hr' Hv Hv'.
    destruct (Hgen r v Hr Hv) as (Hrk & HG & -> & H3).
    destruct (Hgen r' v' Hr' Hv') as (Hrk' & _ & _ & H3').
    apply (iFlag_3_iff_mutual s) in H3 as [H3 _]; [|done|lia|done].
    apply (iFlag_3_iff_mutual s) in H3' as [H3' _]; [|done|lia|done].
    fold t in H3, H3'. split; [lia|done].
  - intros g g' v v' Hg Hg' Hv Hv'.
    destruct (Hrec g v Hg Hv) as (Hgk & HR & -> & H3).
    destruct (Hrec g' v' Hg' Hv') as (Hgk' & _ & _ & H3').
    apply (iFlag_3_iff_mutual s) in H3 as [_ H3]; [|done|done|lia].
    apply (iFlag_3_iff_mutual s) in H3' as [_ H3']; [|done|done|lia].
    fold t in H3, H3'. split; [lia|done].
Qed.

(** X7. The only pair the result can report from both sides is the last
    generated jet with the last reconstructed jet, and it does so exactly when
    the two chose each other. *)
Theorem GetClosestJets_two_sided_pair s (iDebug : Z) :
  wf kMaxJets s → 1 ≤ nGenJets s → 1 ≤ nRecJets s →
  let t := passes kMaxJets jet0 DeltaR s in
  let out := GetClosestJets kMaxJets jet0 DeltaR s iDebug in
  let gl := Z.to_nat (nGenJets s - 1) in
  let rl := Z.to_nat (nRecJets s - 1) in
  (∀ g r, iRecIndex out !! g = Some (Z.of_nat r) →
          iGenIndex out !! r = Some (Z.of_nat g) → g = gl ∧ r = rl) ∧
  (iRecIndex out !! gl = Some (Z.of_nat rl) ∧ iGenIndex out !! rl = Some (Z.of_nat gl)
   ↔ rec t gl = Z.of_nat rl ∧ gen t rl = Z.of_nat gl).
Proof.
  intros Hwf HG HR. cbv zeta.
  destruct (GetClosestJets_slots s iDebug Hwf) as (_ & (Hlg & Hlr & _) & Hall).
  cbv zeta in *. pose proof Hwf as (_ & HGk & HRk).
  set (t := passes kMaxJets jet0 DeltaR s) in *.
  set (out := GetClosestJets kMaxJets jet0 DeltaR s iDebug) in *.
  split.
  - intros g r Hg Hr.
    assert (g < kMaxJets)%nat as Hgk by (apply lookup_lt_Some in Hg; lia).
    assert (r < kMaxJets)%nat as Hrk by (apply lookup_lt_Some in Hr; lia).
    apply list_lookup_total_correct in Hg, Hr.
    destruct (Hall g Hgk) as [_ Hrec]. destruct (Hall r Hrk) as [Hgen _].
    rewrite Hg in Hrec. rewrite Hr in Hgen. unfold verdict_rec in Hrec.
    unfold verdict_gen in Hgen.
    destruct (decide (Z.of_nat g < nGenJets s ∧ 1 ≤ nRecJets s)); [|lia].
    destruct (decide (1 ≤ nGenJets s ∧ Z.of_nat r < nRecJets s)); [|lia].
    destruct (flag t g (Z.to_nat (nRecJets s - 1)) =? 3); [|lia].
    destruct (flag t (Z.to_nat (nGenJets s - 1)) r =? 3); [|lia]. lia.
  - destruct (Hall (Z.to_nat (nGenJets s - 1))) as [_ Hrec]; [lia|].
    destruct (Hall (Z.to_nat (nRecJets s - 1))) as [Hgen _]; [lia|].
    rewrite !list_lookup_lookup_total_lt by lia. rewrite Hrec, Hgen.
    rewrite !decide_True by lia. unfold verdict_rec, verdict_gen.
    pose proof (iFlag_3_iff_mutual s (Z.to_nat (nGenJets s - 1))
                  (Z.to_nat (nRecJets s - 1)) Hwf) as Hiff.
    cbv zeta in Hiff. fold t in Hiff.
    assert (flag t (Z.to_nat (nGenJets s - 1)) (Z.to_nat (nRecJets s - 1)) = 3 ↔
            rec t (Z.to_nat (nGenJets s - 1)) = Z.of_nat (Z.to_nat (nRecJets s - 1)) ∧
            gen t (Z.to_nat (nRecJets s - 1)) = Z.of_nat (Z.to_nat (nGenJets s - 1)))
      as Hiff' by (apply Hiff; lia).
    destruct (Z.eqb_spec (flag t (Z.to_nat (nGenJets s - 1))
                            (Z.to_nat (nRecJets s - 1))) 3) as [H3|H3].
    + split; [intros _; by apply Hiff'|done].
    + split; [intros [[= Hbad] _]; lia|]. intros Hm. by apply Hiff' in Hm.
Qed.

(** X8. A count that is zero or negative on either side leaves -1 in every
    slot of both buffers. *)
Theorem GetClosestJets_nonpositive_count s (iDebug : Z) :
  wf kMaxJets s → nGenJets s ≤ 0 ∨ nRecJets s ≤ 0 →
  let out := GetClosestJets kMaxJets jet0 DeltaR s iDebug in
  iGenIndex out = replicate kMaxJets (-1) ∧ iRecIndex out = replicate kMaxJets (-1).
Proof.
  intros Hwf Hneg. cbv zeta.
  destruct (GetClosestJets_slots s iDebug Hwf) as (_ & (Hlg & Hlr & _) & Hall).
  cbv zeta in *.
  split; (apply (list_eq_same_length _ _ kMaxJets);
          [by rewrite length_replicate|done|]);
    intros i x y Hi Hx Hy; apply lookup_replicate in Hy as [-> _];
    apply list_lookup_total_correct in Hx; destruct (Hall i Hi) as [Hg Hr].
  - rewrite Hg in Hx. rewrite decide_False in Hx; [done|lia].
  - rewrite Hr in Hx. rewrite decide_False in Hx; [done|lia].
Qed.

(** A slot of the result that is not -1 comes from the partner of the last
    jet of the other side. *)
Lemma GetClosestJets_matched_slot s (iDebug : Z) (i : nat) :
  wf kMaxJets s → (i < kMaxJets)%nat →
  let t := passes kMaxJets jet0 DeltaR s in
  let out := GetClosestJets kMaxJets jet0 DeltaR s iDebug in
  (gen out i ≠ -1 →
     1 ≤ nGenJets s ∧ Z.of_nat i < nRecJets s ∧ gen out i = nGenJets s - 1 ∧
     rec t (Z.to_nat (nGenJets s - 1)) = Z.of_nat i) ∧
  (rec out i ≠ -1 →
     1 ≤ nRecJets s ∧ Z.of_nat i < nGenJets s ∧ rec out i = nRecJets s - 1 ∧
     gen t (Z.to_nat (nRecJets s - 1)) = Z.of_nat i).
Proof.
  intros Hwf Hi. cbv zeta.
  destruct (GetClosestJets_slots s iDebug Hwf) as (_ & _ & Hall).
  cbv zeta in *. pose proof Hwf as (_ & HGk & HRk).
  destruct (Hall i Hi) as [Hg Hr]. rewrite Hg, Hr.
  unfold verdict_gen, verdict_rec. split.
  - destruct (decide (1 ≤ nGenJets s ∧ Z.of_nat i < nRecJets s)) as [Hc|Hc]; [|done].
    destruct (Z.eqb_spec (flag (passes kMaxJets jet0 DeltaR s)
                (Z.to_nat (nGenJets s - 1)) i) 3) as [H3|H3]; [|done].
    intros _. apply (iFlag_3_iff_mutual s) in H3 as [H3 _]; [|done|lia|done].
    split_and!; [lia|lia|lia|done].
  - destruct (decide (Z.of_nat i < nGenJets s ∧ 1 ≤ nRecJets s)) as [Hc|Hc]; [|done].
    destruct (Z.eqb_spec (flag (passes kMaxJets jet0 DeltaR s) i
                (Z.to_nat (nRecJets s - 1))) 3) as [H3|H3]; [|done].
    intros _. apply (iFlag_3_iff_mutual s) in H3 as [_ H3]; [|done|done|lia].
    split_and!; [lia|lia|lia|done].
Qed.

End MatcherTheory.

(** ** Scenarios *)

(** C3. Two generated jets and one reconstructed jet close to the first:
    the first generated jet keeps the reconstructed jet as partner and the
    second has none, but the slot of the reconstructed jet ends at -1, the
    cell of the second row having overwritten the match of the first. *)
Theorem scenario_two_gen_one_rec :
  let G0 := mkJet 0.0 0.0 20 in
  let G1 := mkJet 0.5 0.5 15 in
  let R0 := mkJet 0.02 0.01 19.5 in
  let t := passes kMaxJets5 Jet0 Jet_DeltaR (event [G0; G1] [R0]) in
  let out := run [G0; G1] [R0] in
  get2 (iFlag t) 0 0 = 3 ∧ get2 (iFlag t) 1 0 = 1 ∧
  iRecIndex out = [0; -1; -1; -1; -1] ∧
  iGenIndex out = [-1; -1; -1; -1; -1].
Proof. vm_compute. done. Qed.

(** On the matrix of the routine's own comment, where a-1 and c-3 carry a 3,
    the last loop nest reports c-3 from the generated side only and nothing
    else. *)
Lemma consensus_pass_documented_state :
  let out := consensus_pass documented_state in
  iRecIndex out = [-1; -1; 2; -1; -1] ∧ iGenIndex out = [-1; -1; -1; -1; -1].
Proof. vm_compute. done. Qed.

(** The bound of a scan starts below 1.4: a distance of exactly 1.4 is not
    under it. *)
Lemma maxDist_excludes_1_4 :
  (0x1.6666666666666p+0 <? maxDist)%float = false ∧
  (maxDist <? 0x1.6666666666666p+0)%float = true.
Proof. vm_compute. done. Qed.

(** The bound left by a candidate at distance 0.1 lies above 0.1, so that a
    later candidate at the same distance, or slightly farther, replaces it, in
    either direction; and a candidate between the single precision 1.4 and
    the double 1.4 is not taken. *)
Lemma scan_keeps_later_candidate :
  let G0 := mkJet 0 0 20 in
  let near := mkJet 0.1 0 20 in
  let twin := mkJet 0.1 0 10 in
  let farther := mkJet 0.1000000001 0 10 in
  let edge := mkJet 1.39999999 0 20 in
  (Jet_DeltaR G0 near = Jet_DeltaR G0 twin ∧
   iRecIndex (after_forward [G0] [near; twin]) !! 0%nat = Some 1 ∧
   iGenIndex (after_backward [near; twin] [G0]) !! 0%nat = Some 1) ∧
  ((Jet_DeltaR G0 near <? Jet_DeltaR G0 farther)%float = true ∧
   iRecIndex (after_forward [G0] [near; farther]) !! 0%nat = Some 1 ∧
   iGenIndex (after_backward [near; farther] [G0]) !! 0%nat = Some 1) ∧
  ((Jet_DeltaR G0 edge <? 0x1.6666666666666p+0)%float = true ∧
   iRecIndex (after_forward [G0] [edge]) !! 0%nat = Some (-1)).
Proof. vm_compute. done. Qed.

(** ** The statements at concrete events *)

Ltac event_wf :=
  unfold wf, dims, dims2; simpl;
  repeat match goal with
         | |- _ ∧ _ => split
         | |- Forall _ _ => repeat constructor
         | |- _ = _ => reflexivity
         | |- _ ≤ _ => unfold kMaxJets5; lia
         end.

Ltac by_compute := vm_compute; first [reflexivity | discriminate | lia].

Lemma GetClosestJets_empty_witness :
  let s := event [] [mkJet 0.02 0.01 19.5] in
  let out := GetClosestJets kMaxJets5 Jet0 Jet_DeltaR s 0 in
  (nGenJets s = 0 ∨ nRecJets s = 0) ∧
  out = init kMaxJets5 s ∧
  iGenIndex out = replicate kMaxJets5 (-1) ∧
  iRecIndex out = replicate kMaxJets5 (-1) ∧
  nDeltaR out = nDeltaR s.
Proof.
  cbv zeta. split; [left; reflexivity|].
  apply (GetClosestJets_empty kMaxJets5 Jet Jet0 Jet_DeltaR).
  - event_wf.
  - left. reflexivity.
Defined.

Lemma GetClosestJets_reset_witness :
  let s := event [mkJet 0.0 0.0 20; mkJet 0.5 0.5 15] [mkJet 0.02 0.01 19.5] in
  let out := GetClosestJets kMaxJets5 Jet0 Jet_DeltaR s 0 in
  wf kMaxJets5 s ∧
  iGenIndex out !! 1%nat = Some (-1) ∧ iRecIndex out !! 2%nat = Some (-1).
Proof.
  cbv zeta.
  assert (wf kMaxJets5
            (event [mkJet 0.0 0.0 20; mkJet 0.5 0.5 15] [mkJet 0.02 0.01 19.5])) as Hwf.
  { event_wf. }
  split; [exact Hwf|].
  destruct (GetClosestJets_reset kMaxJets5 Jet Jet0 Jet_DeltaR _ 0 Hwf) as (_ & _ & H).
  split.
  - destruct (H 1%nat) as [H1 _]; [by_compute|]. apply H1. by_compute.
  - destruct (H 2%nat) as [_ H2]; [by_compute|]. apply H2. by_compute.
Defined.

Lemma GetClosestJets_last_cell_witness :
  let s := event [mkJet 0.0 0.0 20; mkJet 0.5 0.5 15] [mkJet 0.02 0.01 19.5] in
  let out := GetClosestJets kMaxJets5 Jet0 Jet_DeltaR s 0 in
  wf kMaxJets5 s ∧ 1 ≤ nGenJets s ∧ 1 ≤ nRecJets s ∧
  iGenIndex out !! 0%nat = Some (-1) ∧ iRecIndex out !! 0%nat = Some 0.
Proof.
  cbv zeta.
  assert (wf kMaxJets5
            (event [mkJet 0.0 0.0 20; mkJet 0.5 0.5 15] [mkJet 0.02 0.01 19.5])) as Hwf
    by event_wf.
  split_and!; [exact Hwf|by_compute|by_compute| |].
  - destruct (GetClosestJets_last_cell kMaxJets5 Jet Jet0 Jet_DeltaR _ 0 Hwf) as [H _];
      [by_compute|by_compute|].
    rewrite (H 0%nat) by by_compute. vm_compute. reflexivity.
  - destruct (GetClosestJets_last_cell kMaxJets5 Jet Jet0 Jet_DeltaR _ 0 Hwf) as [_ H];
      [by_compute|by_compute|].
    rewrite (H 0%nat) by by_compute. vm_compute. reflexivity.
Defined.

Lemma GetClosestJets_rejects_non_mutual_witness :
  let s := event [mkJet 0.0 0.0 20; mkJet 0.5 0.5 15] [mkJet 0.02 0.01 19.5] in
  let out := GetClosestJets kMaxJets5 Jet0 Jet_DeltaR s 0 in
  let s' := event [mkJet 0.0 0.0 20; mkJet 0.5 0.5 15]
                  [mkJet 3.0 0.0 19.5; mkJet (-3.0) 0.5 10] in
  let out' := GetClosestJets kMaxJets5 Jet0 Jet_DeltaR s' 0 in
  (wf kMaxJets5 s ∧
   get2 (iFlag (passes kMaxJets5 Jet0 Jet_DeltaR s)) 1 0 ≠ 3 ∧
   iRecIndex out !! 1%nat ≠ Some 0 ∧ iGenIndex out !! 0%nat ≠ Some 1) ∧
  (wf kMaxJets5 s' ∧
   ∀ i, (i < kMaxJets5)%nat →
     iGenIndex out' !! i = Some (-1) ∧ iRecIndex out' !! i = Some (-1)).
Proof.
  cbv zeta. split.
  - assert (wf kMaxJets5
              (event [mkJet 0.0 0.0 20; mkJet 0.5 0.5 15] [mkJet 0.02 0.01 19.5])) as Hwf
      by event_wf.
    assert (get2 (iFlag (passes kMaxJets5 Jet0 Jet_DeltaR
              (event [mkJet 0.0 0.0 20; mkJet 0.5 0.5 15] [mkJet 0.02 0.01 19.5]))) 1 0 ≠ 3)
      as Hne by (vm_compute; discriminate).
    split; [exact Hwf|]. split; [exact Hne|].
    destruct (GetClosestJets_rejects_non_mutual kMaxJets5 Jet Jet0 Jet_DeltaR _ 0 Hwf)
      as [H _].
    destruct (H 1%nat 0%nat) as [_ H']; [by_compute|by_compute|].
    exact (H' Hne).
  - assert (wf kMaxJets5
              (event [mkJet 0.0 0.0 20; mkJet 0.5 0.5 15]
                     [mkJet 3.0 0.0 19.5; mkJet (-3.0) 0.5 10])) as Hwf
      by event_wf.
    split; [exact Hwf|].
    destruct (GetClosestJets_rejects_non_mutual kMaxJets5 Jet Jet0 Jet_DeltaR _ 0 Hwf)
      as [_ H].
    apply H. intros g r Hg Hr. simpl in Hg, Hr.
    destruct g as [|[|g]]; [| |lia]; (destruct r as [|[|r]]; [| |lia]);
      vm_compute; discriminate.
Defined.

Lemma GetClosestJets_range_injective_witness :
  let s := event [mkJet 0.0 0.0 20; mkJet 1.0 1.0 15]
                 [mkJet 0.02 0.01 19.5; mkJet 1.01 0.98 10] in
  let out := GetClosestJets kMaxJets5 Jet0 Jet_DeltaR s 0 in
  wf kMaxJets5 s ∧
  iGenIndex out !! 1%nat = Some 1 ∧ 0 ≤ 1 < nGenJets s ∧
  iRecIndex out !! 1%nat = Some 1 ∧ 0 ≤ 1 < nRecJets s.
Proof.
  cbv zeta.
  assert (wf kMaxJets5
            (event [mkJet 0.0 0.0 20; mkJet 1.0 1.0 15]
                   [mkJet 0.02 0.01 19.5; mkJet 1.01 0.98 10])) as Hwf
    by event_wf.
  destruct (GetClosestJets_range_injective kMaxJets5 Jet Jet0 Jet_DeltaR _ 0 Hwf)
    as (Hg & Hr & _ & _).
  split; [exact Hwf|].
  assert (iGenIndex (GetClosestJets kMaxJets5 Jet0 Jet_DeltaR
            (event [mkJet 0.0 0.0 20; mkJet 1.0 1.0 15]
                   [mkJet 0.02 0.01 19.5; mkJet 1.01 0.98 10]) 0) !! 1%nat = Some 1) as H1
    by (vm_compute; reflexivity).
  assert (iRecIndex (GetClosestJets kMaxJets5 Jet0 Jet_DeltaR
            (event [mkJet 0.0 0.0 20; mkJet 1.0 1.0 15]
                   [mkJet 0.02 0.01 19.5; mkJet 1.01 0.98 10]) 0) !! 1%nat = Some 1) as H2
    by (vm_compute; reflexivity).
  split; [exact H1|]. split; [apply (Hg 1%nat 1 H1); lia|].
  split; [exact H2|]. apply (Hr 1%nat 1 H2); lia.
Defined.

Lemma forward_pass_later_candidate_replaces_witness :
  let s := event [mkJet 0 0 20] [mkJet 0.1 0 20; mkJet 0.1 0 10] in
  dR_of Jet0 Jet_DeltaR s 0 0 = dR_of Jet0 Jet_DeltaR s 0 1 ∧
  wf kMaxJets5 s ∧ nRecJets s = 2 ∧ 1 ≤ nGenJets s ∧
  iRecIndex (after_forward [mkJet 0 0 20] [mkJet 0.1 0 20; mkJet 0.1 0 10]) !! 0%nat
    = Some 1.
Proof.
  cbv zeta.
  assert (wf kMaxJets5 (event [mkJet 0 0 20] [mkJet 0.1 0 20; mkJet 0.1 0 10])) as Hwf
    by event_wf.
  split; [reflexivity|]. split; [exact Hwf|]. split; [reflexivity|].
  split; [by_compute|].
  apply (forward_pass_later_candidate_replaces kMaxJets5 Jet Jet0 Jet_DeltaR _ Hwf).
  - reflexivity.
  - by_compute.
  - vm_compute. reflexivity.
  - vm_compute. reflexivity.
Defined.

Lemma GetClosestJets_one_sided_witness :
  let s := event [mkJet 0.0 0.0 20; mkJet 0.5 0.5 15] [mkJet 0.02 0.01 19.5] in
  let out := GetClosestJets kMaxJets5 Jet0 Jet_DeltaR s 0 in
  wf kMaxJets5 s ∧
  get2 (iFlag (passes kMaxJets5 Jet0 Jet_DeltaR s)) 0 0 = 3 ∧
  iRecIndex out !! 0%nat = Some 0 ∧ iGenIndex out !! 0%nat = Some (-1).
Proof.
  cbv zeta.
  assert (wf kMaxJets5
            (event [mkJet 0.0 0.0 20; mkJet 0.5 0.5 15] [mkJet 0.02 0.01 19.5])) as Hwf
    by event_wf.
  split; [exact Hwf|]. split; [vm_compute; reflexivity|].
  apply (GetClosestJets_one_sided kMaxJets5 Jet Jet0 Jet_DeltaR _ 0 0%nat Hwf).
  - by_compute.
  - by_compute.
  - vm_compute. reflexivity.
Defined.

(** ** The container without a special PDG code *)

Section ContainerTheory.

Variable kHFCut : Z.
Variable kMCGeneratorCut : Z.
Variable CheckOrigin : AliAODMCParticle → list (option AliAODMCParticle) → Z.
Variable CheckDecayChannel : AliAODMCParticle → list (option AliAODMCParticle) → Z.
Variable ApplyKinematicCuts : AliHFAODMCParticleContainer → Z → Z → bool * Z.
Variable base_AcceptMCParticle : AliHFAODMCParticleContainer → Z → Z → bool * Z.

Local Abbreviation Accept :=
  (AcceptMCParticle kHFCut kMCGeneratorCut CheckOrigin CheckDecayChannel
     ApplyKinematicCuts base_AcceptMCParticle).

(** The default constructor leaves the special PDG code at 0. *)
Lemma ctor_default_fSpecialPDG (arr : list (option AliAODMCParticle)) (gi : Z) :
  fSpecialPDG (ctor_default arr gi) = 0.
Proof. reflexivity. Qed.

(** C10. With [fSpecialPDG] at 0, [IsSpecialPDGDaughter] answers true for
    every particle without entering its loop, so that
    [AcceptMCParticle(Int_t)] rejects every particle of the array with the
    reason [kHFCut] and accepts at no index. *)
Theorem AcceptMCParticle_without_special_PDG (c : AliHFAODMCParticleContainer) :
  fSpecialPDG c = 0 →
  (∀ fuel part, IsSpecialPDGDaughter fuel c part = Ret true) ∧
  (∀ fuel i part, At c i = Some part → Accept fuel c i = Ret (false, kHFCut)) ∧
  (∀ fuel i reason, Accept fuel c i ≠ Ret (true, reason)).
Proof.
  intros H0.
  assert (∀ fuel part, IsSpecialPDGDaughter fuel c part = Ret true) as Hd.
  { intros fuel part. unfold IsSpecialPDGDaughter. by rewrite H0. }
  assert (∀ fuel i part, At c i = Some part → Accept fuel c i = Ret (false, kHFCut)) as Ha.
  { intros fuel i part Hat. unfold AcceptMCParticle. rewrite Hat, Hd, H0. done. }
  split_and!; [done|done|].
  intros fuel i reason. destruct (At c i) as [part|] eqn:Hat.
  - by rewrite (Ha fuel i part Hat).
  - unfold AcceptMCParticle. by rewrite Hat.
Qed.

End ContainerTheory.

Lemma AcceptMCParticle_without_special_PDG_witness :
  let arr := [Some (mkParticle 421 true (-1) 0); Some (mkParticle (-321) false 0 0)] in
  let c := ctor_default arr (-1) in
  let accept := AcceptMCParticle 32 1024 (λ _ _, 0) (λ _ _, 0)
                  (λ _ _ r, (true, r)) (λ _ _ r, (true, r)) in
  fSpecialPDG c = 0 ∧
  IsSpecialPDGDaughter 0 c (Some (mkParticle (-321) false 0 0)) = Ret true ∧
  accept 0%nat c 0 = Ret (false, 32) ∧
  accept 0%nat c 1 = Ret (false, 32).
Proof.
  cbv zeta. split; [reflexivity|].
  destruct (AcceptMCParticle_without_special_PDG 32 1024 (λ _ _, 0) (λ _ _, 0)
              (λ _ _ r, (true, r)) (λ _ _ r, (true, r))
              (ctor_default [Some (mkParticle 421 true (-1) 0);
                             Some (mkParticle (-321) false 0 0)] (-1)))
    as (Hd & Ha & _); [reflexivity|].
  split; [apply Hd|]. split; eapply Ha; reflexivity.
Defined.


(** ** The fills of the event loop *)

Lemma for__append {A : Type} (f : nat → list A) (n : nat) (l : list A) :
  for_ n (λ i tr, tr ++ f i) l = l ++ flat_map f (seq 0 n).
Proof.
  induction n as [|n IH].
  - simpl. by rewrite app_nil_r.
  - rewrite for__S, IH, seq_S, flat_map_app. simpl.
    by rewrite app_nil_r, app_assoc.
Qed.

Lemma count_fills_app (h : hist) (l1 l2 : list fill) :
  count_fills h (l1 ++ l2) = (count_fills h l1 + count_fills h l2)%nat.
Proof. unfold count_fills. by rewrite filter_app, length_app. Qed.

Lemma count_fills_flat_map (h : hist) (f : nat → list fill) (l : list nat) :
  count_fills h (flat_map f l) = sum_list (map (λ i, count_fills h (f i)) l).
Proof.
  induction l as [|i l IH]; [done|].
  simpl. by rewrite count_fills_app, IH.
Qed.

(** A sum of zeros and ones over distinct indexes, at most one of which
    counts, is at most one. *)
Lemma sum_list_at_most_one (c : nat → nat) (l : list nat) :
  NoDup l → (∀ i, (c i ≤ 1)%nat) →
  (∀ i j, i ∈ l → j ∈ l → c i ≠ 0%nat → c j ≠ 0%nat → i = j) →
  (sum_list (map c l) ≤ 1)%nat.
Proof.
  intros Hnd H1 Huniq. induction l as [|a l IH]; [simpl; lia|].
  apply NoDup_cons in Hnd as [Ha Hnd]. simpl.
  destruct (decide (c a = 0%nat)) as [H0|H0].
  - rewrite H0. simpl. apply IH; [done|].
    intros i j Hi Hj. apply Huniq; by right.
  - assert (sum_list (map c l) = 0%nat) as ->; [|specialize (H1 a); lia].
    clear IH. induction l as [|b l IH]; [done|]. simpl.
    assert (c b = 0%nat) as ->.
    { destruct (decide (c b = 0%nat)) as [|Hb]; [done|]. exfalso. apply Ha.
      rewrite (Huniq a b); [by left|by left|by right; left|done|done]. }
    simpl. apply IH.
    + intros Hin. apply Ha. by right.
    + by apply NoDup_cons in Hnd as [_ ?].
    + intros i j Hi Hj. apply Huniq.
      * apply elem_of_cons in Hi as [->|Hi]; [by left|by right; right].
      * apply elem_of_cons in Hj as [->|Hj]; [by left|by right; right].
Qed.

(** ** The list of histograms *)

Lemma fHistList_closed_form (k : nat) (l : list hist_ref) :
  UserCreateOutputObjects_fHistList k l =
    l ++ [PerEvent fh1PtHard; PerEvent fh1PtHard_NoW; PerEvent fh1PtHard_Trials;
          PerEvent fh1PtHard_Trials_NoW; PerEvent fh1NGenJets; PerEvent fh1NRecJets]
      ++ flat_map (λ ij, map (λ h, PerJet h ij) listed_families) (seq 0 k).
Proof.
  unfold UserCreateOutputObjects_fHistList.
  change (0 <? saveLevel) with true. cbv iota.
  change add_jet_hists
    with (λ (ij : nat) (tr : list hist_ref), tr ++ map (λ h, PerJet h ij) listed_families).
  rewrite for__append. by rewrite <- app_assoc.
Qed.

Lemma fHistList_per_jet (k : nat) (h : hist) (ij : nat) :
  PerJet h ij ∈ UserCreateOutputObjects_fHistList k [] ↔
  (ij < k)%nat ∧ h ∈ listed_families.
Proof.
  rewrite fHistList_closed_form, app_nil_l, elem_of_app. split.
  - intros [H|H].
    { repeat (apply elem_of_cons in H as [H|H]; [done|]). by apply elem_of_nil in H. }
    apply list_elem_of_In, in_flat_map in H as (j & Hj & Hin). apply in_seq in Hj.
    apply in_map_iff in Hin as (h' & [= -> ->] & Hh').
    split; [lia|by apply list_elem_of_In].
  - intros [Hij Hh]. right. apply list_elem_of_In, in_flat_map.
    exists ij. split; [apply in_seq; lia|].
    apply in_map_iff. exists h. split; [done|by apply list_elem_of_In].
Qed.

(** X10. [UserCreateOutputObjects] appends to the list the six histograms of
    the event and, for each slot below [kMaxJets], the five one-dimensional
    histograms and [fh2PtFGen]; no three-dimensional histogram and no
    fragmentation histogram enters the list at any slot. *)
Theorem UserCreateOutputObjects_fHistList_content (k : nat) (l : list hist_ref) :
  length (UserCreateOutputObjects_fHistList k l) = (length l + 6 + 6 * k)%nat ∧
  (∀ h ij, PerJet h ij ∈ UserCreateOutputObjects_fHistList k [] ↔
           (ij < k)%nat ∧
           (h = fh1E ∨ h = fh1PtRecIn ∨ h = fh1PtRecOut ∨ h = fh1PtGenIn ∨
            h = fh1PtGenOut ∨ h = fh2PtFGen)).
Proof.
  split.
  - rewrite fHistList_closed_form, !length_app. simpl.
    assert (∀ n m, length (flat_map (λ ij, map (λ h, PerJet h ij) listed_families)
                             (seq m n)) = (6 * n)%nat) as ->; [|lia].
    induction n as [|n IH]; intros m; [done|].
    simpl. rewrite IH. lia.
  - intros h ij. rewrite fHistList_per_jet. unfold listed_families.
    rewrite !elem_of_cons, elem_of_nil. tauto.
Qed.

Section CallerTheory.

Variable kMaxJets : nat.
Variable AliAODJet : Type.
Variable jet0 : AliAODJet.
Variable DeltaR : AliAODJet → AliAODJet → float.
Variable jetPt : AliAODJet → float.
Variable jetEta : AliAODJet → float.
Variable jetPhi : AliAODJet → float.
Variable jetE : AliAODJet → float.

Implicit Types s t : st AliAODJet.

Local Abbreviation relate :=
  (UserExec_relate kMaxJets jet0 DeltaR jetPt jetEta jetPhi jetE).
Local Abbreviation recf out w p := (rec_fills jet0 jetPt jetEta jetPhi jetE out w p).
Local Abbreviation genf out w := (gen_fills jet0 jetPt out w).

(** Cutting the counts is what makes the call meet the contract of the
    matcher, however many jets the event holds. *)
Lemma handed_wf s :
  dims kMaxJets s →
  wf kMaxJets (handed kMaxJets s) ∧
  nGenJets (handed kMaxJets s) = Z.min (nGenJets s) (Z.of_nat kMaxJets) ∧
  nRecJets (handed kMaxJets s) = Z.min (nRecJets s) (Z.of_nat kMaxJets) ∧
  genJets (handed kMaxJets s) = genJets s ∧ recJets (handed kMaxJets s) = recJets s.
Proof.
  intros (Hlg & Hlr & Hd2). unfold handed.
  set (s1 := set_nRecJets _ _).
  pose proof (for__ind (λ _ u,
    inputs u = inputs s1 ∧ dims kMaxJets u) kMaxJets preset_row s1) as [Hin Hd].
  - by split.
  - intros i u _ [Hin (Hg & Hr & Hf)]. unfold preset_row, dims. simpl.
    rewrite !length_insert. by split.
  - unfold inputs in Hin. simpl in Hin. injection Hin as HgJ HG HrJ HR.
    unfold wf. rewrite HG, HR. split_and!; [done|lia|lia|done|done|done|done].
Qed.

Lemma relate_trace s (fDebug : Z) (eventW ptHard : float) :
  let out := GetClosestJets kMaxJets jet0 DeltaR (handed kMaxJets s) fDebug in
  relate s fDebug eventW ptHard =
    (out,
     flat_map (rec_fills jet0 jetPt jetEta jetPhi jetE out eventW ptHard)
       (seq 0 (Z.to_nat (nRecJets out))) ++
     flat_map (gen_fills jet0 jetPt out eventW) (seq 0 (Z.to_nat (nGenJets out)))).
Proof.
  cbv zeta. unfold UserExec_relate. cbv zeta. fold (handed kMaxJets s).
  by rewrite !for__append.
Qed.

Lemma count_rec_fills s (eventW ptHard : float) (ir : nat) (h : hist) :
  count_fills h (rec_fills jet0 jetPt jetEta jetPhi jetE s eventW ptHard ir) =
    Nat.add
      (if decide (h = fh1E ∨ h = fh1PtRecIn ∨ h = fh3RecEtaPhiPt) then 1%nat else 0%nat)
      (if (0 <=? iGenIndex s !!! ir) && (iGenIndex s !!! ir <? nGenJets s)
       then if decide (h = fh1PtRecOut ∨ h = fh2PtFGen ∨ h = fh3PtRecGenHard ∨
                       h = fh3PtRecGenHard_NoW) then 1%nat else 0%nat
       else 0%nat).
Proof.
  unfold rec_fills. cbv zeta. rewrite count_fills_app.
  destruct ((0 <=? iGenIndex s !!! ir) && (iGenIndex s !!! ir <? nGenJets s));
    destruct h; reflexivity.
Qed.

Lemma count_gen_fills s (eventW : float) (ig : nat) (h : hist) :
  count_fills h (gen_fills jet0 jetPt s eventW ig) =
    Nat.add
      (if decide (h = fh1PtGenIn) then 1%nat else 0%nat)
      (if 0 <=? iRecIndex s !!! ig
       then if decide (h = fh1PtGenOut) then 1%nat else 0%nat else 0%nat).
Proof.
  unfold gen_fills. cbv zeta.
  destruct (0 <=? iRecIndex s !!! ig); destruct h; reflexivity.
Qed.

Lemma sum_list_const (c : nat) (l : list nat) :
  sum_list (map (λ _, c) l) = (length l * c)%nat.
Proof. induction l as [|a l IH]; [done|]. simpl. rewrite IH. lia. Qed.

(** X9. In the fills of one event the input histograms get one entry per jet
    kept, while [fh1PtRecOut] gets at most one entry in all and [fh1PtGenOut]
    at most one, whatever the number of jets that found each other. *)
Theorem UserExec_relate_counts s (fDebug : Z) (eventW ptHard : float) :
  dims kMaxJets s →
  let tr := (relate s fDebug eventW ptHard).2 in
  count_fills fh1PtRecIn tr = Z.to_nat (Z.min (nRecJets s) (Z.of_nat kMaxJets)) ∧
  count_fills fh1PtGenIn tr = Z.to_nat (Z.min (nGenJets s) (Z.of_nat kMaxJets)) ∧
  (count_fills fh1PtRecOut tr ≤ 1)%nat ∧
  (count_fills fh1PtGenOut tr ≤ 1)%nat.
Proof.
  intros Hd. cbv zeta. rewrite relate_trace. cbv zeta. simpl.
  destruct (handed_wf s Hd) as (Hwf & HG & HR & _).
  destruct (GetClosestJets_slots kMaxJets AliAODJet jet0 DeltaR (handed kMaxJets s) fDebug Hwf)
    as (Hin & _ & _). cbv zeta in Hin.
  set (out := GetClosestJets kMaxJets jet0 DeltaR (handed kMaxJets s) fDebug) in *.
  assert (nGenJets out = nGenJets (handed kMaxJets s) ∧ nRecJets out = nRecJets (handed kMaxJets s))
    as [HGo HRo] by (unfold inputs in Hin; split; congruence).
  rewrite !count_fills_app, !count_fills_flat_map.
  pose proof Hwf as (_ & HGk & HRk).
  split_and!.
  - rewrite (map_ext (λ ir, count_fills fh1PtRecIn (recf out eventW ptHard ir))
               (λ _, 1%nat)),
            (map_ext (λ ig, count_fills fh1PtRecIn (genf out eventW ig)) (λ _, 0%nat)).
    + rewrite !sum_list_const, !length_seq. rewrite HRo, HR. lia.
    + intros ig. rewrite count_gen_fills. simpl. by destruct (0 <=? _).
    + intros ir. rewrite count_rec_fills. simpl. by destruct (_ && _).
  - rewrite (map_ext (λ ir, count_fills fh1PtGenIn (recf out eventW ptHard ir))
               (λ _, 0%nat)),
            (map_ext (λ ig, count_fills fh1PtGenIn (genf out eventW ig)) (λ _, 1%nat)).
    + rewrite !sum_list_const, !length_seq. rewrite HGo, HG. lia.
    + intros ig. rewrite count_gen_fills. simpl. by destruct (0 <=? _).
    + intros ir. rewrite count_rec_fills. simpl. by destruct (_ && _).
  - rewrite (map_ext (λ ig, count_fills fh1PtRecOut (genf out eventW ig)) (λ _, 0%nat))
      by (intros ig; rewrite count_gen_fills; simpl; by destruct (0 <=? _)).
    rewrite sum_list_const, Nat.mul_0_r, Nat.add_0_r.
    apply sum_list_at_most_one; [apply NoDup_seq| |].
    + intros i. rewrite count_rec_fills. simpl. destruct (_ && _); simpl; lia.
    + intros i j Hi Hj Hci Hcj.
      apply elem_of_seq in Hi, Hj. rewrite count_rec_fills in Hci, Hcj.
      simpl in Hci, Hcj.
      destruct (GetClosestJets_matched_slot kMaxJets AliAODJet jet0 DeltaR
                  (handed kMaxJets s) fDebug i Hwf) as [Hmi _]; [lia|].
      destruct (GetClosestJets_matched_slot kMaxJets AliAODJet jet0 DeltaR
                  (handed kMaxJets s) fDebug j Hwf) as [Hmj _]; [lia|].
      cbv zeta in Hmi, Hmj. fold out in Hmi, Hmj.
      destruct (Z.leb_spec 0 (iGenIndex out !!! i)); [|done].
      destruct (Z.leb_spec 0 (iGenIndex out !!! j)); [|done].
      destruct Hmi as (_ & _ & _ & Hmi); [lia|].
      destruct Hmj as (_ & _ & _ & Hmj); [lia|]. lia.
  - rewrite (map_ext (λ ir, count_fills fh1PtGenOut (recf out eventW ptHard ir))
               (λ _, 0%nat))
      by (intros ir; rewrite count_rec_fills; simpl; by destruct (_ && _)).
    rewrite sum_list_const, Nat.mul_0_r, Nat.add_0_l.
    apply sum_list_at_most_one; [apply NoDup_seq| |].
    + intros i. rewrite count_gen_fills. simpl. destruct (0 <=? _); simpl; lia.
    + intros i j Hi Hj Hci Hcj.
      apply elem_of_seq in Hi, Hj. rewrite count_gen_fills in Hci, Hcj.
      simpl in Hci, Hcj.
      destruct (GetClosestJets_matched_slot kMaxJets AliAODJet jet0 DeltaR
                  (handed kMaxJets s) fDebug i Hwf) as [_ Hmi]; [lia|].
      destruct (GetClosestJets_matched_slot kMaxJets AliAODJet jet0 DeltaR
                  (handed kMaxJets s) fDebug j Hwf) as [_ Hmj]; [lia|].
      cbv zeta in Hmi, Hmj. fold out in Hmi, Hmj.
      destruct (Z.leb_spec 0 (iRecIndex out !!! i)); [|done].
      destruct (Z.leb_spec 0 (iRecIndex out !!! j)); [|done].
      destruct Hmi as (_ & _ & _ & Hmi); [lia|].
      destruct Hmj as (_ & _ & _ & Hmj); [lia|]. lia.
Qed.

Lemma rec_fills_elem s (eventW ptHard : float) (ir : nat) (f : fill) :
  f ∈ recf s eventW ptHard ir →
  fill_slot f = ir ∧
  fill_hist f ∈ [fh1E; fh1PtRecIn; fh3RecEtaPhiPt; fh1PtRecOut; fh2PtFGen;
                 fh3PtRecGenHard; fh3PtRecGenHard_NoW].
Proof.
  unfold rec_fills. cbv zeta. intros H. apply elem_of_app in H as [H|H].
  - repeat (apply elem_of_cons in H as [->|H]; [simpl; split; [done|rewrite !elem_of_cons; auto 10]|]).
    by apply elem_of_nil in H.
  - destruct (_ && _); [|by apply elem_of_nil in H].
    repeat (apply elem_of_cons in H as [->|H]; [simpl; split; [done|rewrite !elem_of_cons; auto 10]|]).
    by apply elem_of_nil in H.
Qed.

Lemma gen_fills_elem s (eventW : float) (ig : nat) (f : fill) :
  f ∈ genf s eventW ig →
  fill_slot f = ig ∧ fill_hist f ∈ [fh1PtGenIn; fh1PtGenOut].
Proof.
  unfold gen_fills. cbv zeta. intros H.
  apply elem_of_cons in H as [->|H]; [simpl; split; [done|rewrite !elem_of_cons; auto 10]|].
  destruct (0 <=? _); [|by apply elem_of_nil in H].
  apply elem_of_cons in H as [->|H]; [simpl; split; [done|rewrite !elem_of_cons; auto 10]|].
  by apply elem_of_nil in H.
Qed.

(** X11. Every fill of the event loop goes to a slot below [kMaxJets], and to
    a histogram of the output list unless it is one of [fh3RecEtaPhiPt],
    [fh3PtRecGenHard] and [fh3PtRecGenHard_NoW], which the task fills but
    never lists. *)
Theorem UserExec_relate_fills s (fDebug : Z) (eventW ptHard : float) (f : fill) :
  dims kMaxJets s →
  f ∈ (relate s fDebug eventW ptHard).2 →
  (fill_slot f < kMaxJets)%nat ∧
  (PerJet (fill_hist f) (fill_slot f) ∈ UserCreateOutputObjects_fHistList kMaxJets [] ↔
   fill_hist f ≠ fh3RecEtaPhiPt ∧ fill_hist f ≠ fh3PtRecGenHard ∧
   fill_hist f ≠ fh3PtRecGenHard_NoW).
Proof.
  intros Hd. rewrite relate_trace. cbv zeta. simpl.
  destruct (handed_wf s Hd) as (Hwf & HG & HR & _).
  destruct (GetClosestJets_slots kMaxJets AliAODJet jet0 DeltaR (handed kMaxJets s)
              fDebug Hwf) as (Hin & _ & _). cbv zeta in Hin.
  set (out := GetClosestJets kMaxJets jet0 DeltaR (handed kMaxJets s) fDebug) in *.
  assert (nGenJets out = nGenJets (handed kMaxJets s) ∧
          nRecJets out = nRecJets (handed kMaxJets s))
    as [HGo HRo] by (unfold inputs in Hin; split; congruence).
  intros Hf.
  assert ((fill_slot f < kMaxJets)%nat ∧
          fill_hist f ∈ [fh1E; fh1PtRecIn; fh3RecEtaPhiPt; fh1PtRecOut; fh2PtFGen;
                         fh3PtRecGenHard; fh3PtRecGenHard_NoW; fh1PtGenIn; fh1PtGenOut])
    as [Hslot Hfam].
  { apply elem_of_app in Hf as [Hf|Hf];
      apply list_elem_of_In, in_flat_map in Hf as (i & Hi & Hf);
      apply in_seq in Hi; apply list_elem_of_In in Hf.
    - apply rec_fills_elem in Hf as [-> Hh]. split; [lia|].
      revert Hh. rewrite !elem_of_cons, !elem_of_nil. intuition.
    - apply gen_fills_elem in Hf as [-> Hh]. split; [lia|].
      revert Hh. rewrite !elem_of_cons, !elem_of_nil. intuition. }
  split; [done|]. rewrite fHistList_per_jet. unfold listed_families.
  revert Hfam. rewrite !elem_of_cons, !elem_of_nil.
  destruct (fill_hist f); intuition congruence.
Qed.

End CallerTheory.

(** ** The limits of the bins *)

(** X12. The three arrays of bin limits have one entry more than bins and
    are strictly increasing; the momentum limits run from 0 to 200, the
    azimuth limits start at 0 and end above two pi, and the pseudorapidity
    limits start at -1.1 and end just below 1.1. *)
Theorem bin_limits_tables :
  (length binLimitsPt = 101%nat ∧ length binLimitsEta = 23%nat ∧
   length binLimitsPhi = 361%nat) ∧
  (increasing binLimitsPt = true ∧ increasing binLimitsEta = true ∧
   increasing binLimitsPhi = true) ∧
  (nth 0 binLimitsPt 0 = 0 ∧ nth 100 binLimitsPt 0 = 200)%float ∧
  (nth 0 binLimitsPhi 0 = 0 ∧ (kPi * 2 <? nth 360 binLimitsPhi 0) = true)%float ∧
  (nth 0 binLimitsEta 0 = -1.1 ∧ (nth 22 binLimitsEta 0 <? 1.1) = true)%float.
Proof. vm_compute. done. Qed.

(** ** Walking up the mother chain *)

Lemma At_of_nat (c : AliHFAODMCParticleContainer) (i : nat) :
  At c (Z.of_nat i) = mjoin (fClArray c !! i).
Proof.
  unfold At. destruct (Z.ltb_spec (Z.of_nat i) 0) as [?|_]; [lia|].
  by rewrite Nat2Z.id.
Qed.

Lemma At_Some_nonneg (c : AliHFAODMCParticleContainer) (i : Z) (p : AliAODMCParticle) :
  At c i = Some p → 0 ≤ i.
Proof. unfold At. destruct (Z.ltb_spec i 0); [done|lia]. Qed.

(** The answer of a walk that ends does not depend on the fuel left. *)
Lemma mother_walk_more_fuel (c : AliHFAODMCParticleContainer) (fuel fuel' : nat)
    (p : AliAODMCParticle) :
  (fuel ≤ fuel')%nat → mother_walk fuel c p ≠ OutOfFuel →
  mother_walk fuel' c p = mother_walk fuel c p.
Proof.
  revert fuel' p. induction fuel as [|fuel IH]; intros fuel' p Hle Hend; [done|].
  destruct fuel' as [|fuel']; [lia|]. simpl in *.
  destruct (GetMother p <? 0); [done|].
  destruct (At c (GetMother p)) as [m|]; [|done].
  destruct (is_special c m); [done|]. apply IH; [lia|done].
Qed.

Lemma mother_walk_sound (c : AliHFAODMCParticleContainer) (fuel : nat)
    (p : AliAODMCParticle) (b : bool) :
  mother_walk fuel c p = Ret b →
  b = true ↔ ∃ a, ancestor c p a ∧ is_special c a = true.
Proof.
  revert p. induction fuel as [|fuel IH]; intros p Hw; [done|].
  simpl in Hw. destruct (Z.ltb_spec (GetMother p) 0) as [Hneg|Hpos].
  - injection Hw as <-. split; [done|]. intros (a & Ha & _). exfalso.
    inversion Ha as [? m Hat|? m ? Hat]; subst; apply At_Some_nonneg in Hat; lia.
  - destruct (At c (GetMother p)) as [m|] eqn:Hat; [|done].
    destruct (is_special c m) eqn:Hm.
    + injection Hw as <-. split; [|done]. intros _. exists m.
      split; [by apply ancestor_mother|done].
    + rewrite (IH m Hw). split.
      * intros (a & Ha & Hs). exists a. split; [by eapply ancestor_further|done].
      * intros (a & Ha & Hs).
        inversion Ha as [? m' Hat'|? m' ? Hat' Hfar]; subst;
          rewrite Hat in Hat'; injection Hat' as <-.
        -- congruence.
        -- by exists a.
Qed.

(** X13. When the walk up the chain ends with an answer, the answer is true
    exactly when a particle met on the way, the mother or a remoter ancestor,
    is a primary particle with the special PDG code. *)
Theorem IsSpecialPDGDaughter_answer (c : AliHFAODMCParticleContainer) (fuel : nat)
    (p : AliAODMCParticle) (b : bool) :
  fSpecialPDG c ≠ 0 →
  IsSpecialPDGDaughter fuel c (Some p) = Ret b →
  b = true ↔ ∃ a, ancestor c p a ∧ is_special c a = true.
Proof.
  intros H0. unfold IsSpecialPDGDaughter.
  destruct (Z.eqb_spec (fSpecialPDG c) 0); [done|]. apply mother_walk_sound.
Qed.

(** A walk started on a particle whose mother index is below [n] ends within
    [n + 1] turns. *)
Lemma mother_walk_bounded (c : AliHFAODMCParticleContainer) (n : nat)
    (q : AliAODMCParticle) :
  mothers_first c → GetMother q < Z.of_nat n →
  mother_walk (S n) c q ≠ OutOfFuel ∧
  (mothers_present c →
   (0 ≤ GetMother q → is_Some (At c (GetMother q))) →
   ∃ b, mother_walk (S n) c q = Ret b).
Proof.
  intros Hfirst. revert q. induction n as [|n IH]; intros q Hq.
  - simpl. destruct (Z.ltb_spec (GetMother q) 0); [|lia]. split; [done|]. by exists false.
  - change (mother_walk (S (S n)) c q) with
      (let imo := GetMother q in
       if imo <? 0 then Ret false
       else match At c imo with
            | None => NullDeref
            | Some pm => if is_special c pm then Ret true else mother_walk (S n) c pm
            end). cbv zeta.
    destruct (Z.ltb_spec (GetMother q) 0) as [Hneg|Hpos];
      [split; [done|by exists false]|].
    destruct (At c (GetMother q)) as [m|] eqn:Hm.
    + destruct (is_special c m); [split; [done|by exists true]|].
      assert (GetMother m < Z.of_nat n) as Hmn.
      { rewrite <- (Z2Nat.id (GetMother q)) in Hm by done.
        apply Hfirst in Hm. lia. }
      destruct (IH m Hmn) as [Hne Hret]. split; [done|].
      intros Hpres _. apply Hret; [done|]. intros Hm0.
      rewrite <- (Z2Nat.id (GetMother q)) in Hm by done.
      by apply (Hpres _ _ Hm).
    + split; [done|]. intros _ Hsome. destruct (Hsome Hpos) as [? ?]. done.
Qed.

Lemma mother_walk_total (c : AliHFAODMCParticleContainer) (i fuel : nat)
    (p : AliAODMCParticle) :
  mothers_first c → mothers_present c → At c (Z.of_nat i) = Some p → (i < fuel)%nat →
  ∃ b, mother_walk fuel c p = Ret b.
Proof.
  intros Hfirst Hpres Hat Hfuel.
  destruct (mother_walk_bounded c i p Hfirst (Hfirst i p Hat)) as [Hne Hret].
  rewrite (mother_walk_more_fuel c (S i) fuel p) by (lia || done).
  apply Hret; [done|]. intros H0. by apply (Hpres i p).
Qed.

(** X14. On an array in which every particle stands after its mother, the
    walk started at the particle of index [i] ends within [i + 1] turns; when
    moreover every mother index leads to a particle, it ends with an
    answer. *)
Theorem IsSpecialPDGDaughter_ends (c : AliHFAODMCParticleContainer) (i fuel : nat)
    (p : AliAODMCParticle) :
  mothers_first c → At c (Z.of_nat i) = Some p → (i < fuel)%nat →
  IsSpecialPDGDaughter fuel c (Some p) ≠ OutOfFuel ∧
  (mothers_present c → ∃ b, IsSpecialPDGDaughter fuel c (Some p) = Ret b).
Proof.
  intros Hfirst Hat Hfuel. unfold IsSpecialPDGDaughter.
  destruct (fSpecialPDG c =? 0); [split; [done|by exists true]|].
  split.
  - destruct (mother_walk_bounded c i p Hfirst (Hfirst i p Hat)) as [Hne _].
    by rewrite (mother_walk_more_fuel c (S i) fuel p) by (lia || done).
  - intros Hpres. by apply (mother_walk_total c i).
Qed.

(** X15. A particle that is not special and is recorded as its own mother
    makes the walk turn for ever: no amount of fuel gives an answer. *)
Theorem mother_walk_self_mother (c : AliHFAODMCParticleContainer) (i : Z)
    (p : AliAODMCParticle) :
  fSpecialPDG c ≠ 0 → At c i = Some p → GetMother p = i → is_special c p = false →
  ∀ fuel, IsSpecialPDGDaughter fuel c (Some p) = OutOfFuel.
Proof.
  intros H0 Hat Hself Hns fuel. unfold IsSpecialPDGDaughter.
  destruct (Z.eqb_spec (fSpecialPDG c) 0); [done|].
  induction fuel as [|fuel IH]; [done|]. simpl.
  rewrite Hself. apply At_Some_nonneg in Hat as Hi.
  destruct (Z.ltb_spec i 0); [lia|]. by rewrite Hat, Hns.
Qed.

Section AcceptTheory.

Variable kHFCut : Z.
Variable kMCGeneratorCut : Z.
Variable CheckOrigin : AliAODMCParticle → list (option AliAODMCParticle) → Z.
Variable CheckDecayChannel : AliAODMCParticle → list (option AliAODMCParticle) → Z.
Variable ApplyKinematicCuts : AliHFAODMCParticleContainer → Z → Z → bool * Z.
Variable base_AcceptMCParticle : AliHFAODMCParticleContainer → Z → Z → bool * Z.

Local Abbreviation Accept :=
  (AcceptMCParticle kHFCut kMCGeneratorCut CheckOrigin CheckDecayChannel
     ApplyKinematicCuts base_AcceptMCParticle).

(** X16. On an array in which every particle stands after its mother and
    every mother index leads to a particle, a particle that is not special
    itself is rejected with [kHFCut] when one of its ancestors is special, and
    gets the verdict of the base class otherwise. *)
Theorem AcceptMCParticle_not_special (c : AliHFAODMCParticleContainer)
    (i fuel : nat) (p : AliAODMCParticle) :
  fSpecialPDG c ≠ 0 → mothers_first c → mothers_present c →
  At c (Z.of_nat i) = Some p → is_special c p = false → (i < fuel)%nat →
  ((∃ a, ancestor c p a ∧ is_special c a = true) →
   Accept fuel c (Z.of_nat i) = Ret (false, kHFCut)) ∧
  ((∀ a, ancestor c p a → is_special c a = false) →
   Accept fuel c (Z.of_nat i) = Ret (base_AcceptMCParticle c (Z.of_nat i) 0)).
Proof.
  intros H0 Hfirst Hpres Hat Hns Hfuel.
  destruct (mother_walk_total c i fuel p Hfirst Hpres Hat Hfuel) as [b Hb].
  pose proof (mother_walk_sound c fuel p b Hb) as Hiff.
  assert (Accept fuel c (Z.of_nat i) =
          if b then Ret (false, kHFCut)
          else Ret (base_AcceptMCParticle c (Z.of_nat i) 0)) as ->.
  { unfold AcceptMCParticle. cbv zeta. rewrite Hat.
    unfold is_special in Hns. unfold IsSpecialPDGDaughter.
    destruct (Z.eqb_spec (fSpecialPDG c) 0); [done|]. simpl.
    rewrite Hns, Hb. by destruct b. }
  split.
  - intros Hex. apply Hiff in Hex. by subst b.
  - intros Hall. destruct b; [|done]. destruct Hiff as [Hiff _].
    destruct (Hiff eq_refl) as (a & Ha & Hs). rewrite (Hall a Ha) in Hs. done.
Qed.

(** X17. A primary particle with the special PDG code never reaches the cuts
    of the base class nor the daughter test: it is rejected with
    [kMCGeneratorCut] when a generator index is set and differs from its own,
    and gets the verdict of the kinematic cuts otherwise. Neither the origin
    nor the decay channel that the method computes has any influence on the
    result. *)
Theorem AcceptMCParticle_special (c : AliHFAODMCParticleContainer) (fuel : nat)
    (i : Z) (p : AliAODMCParticle) :
  fSpecialPDG c ≠ 0 → At c i = Some p → is_special c p = true →
  Accept fuel c i =
    if (0 <=? fGeneratorIndex c) && negb (fGeneratorIndex c =? GetGeneratorIndex p)
    then Ret (false, kMCGeneratorCut)
    else Ret (ApplyKinematicCuts c i 0).
Proof.
  intros H0 Hat Hs. unfold AcceptMCParticle. cbv zeta. rewrite Hat.
  unfold is_special in Hs. destruct (Z.eqb_spec (fSpecialPDG c) 0); [done|].
  simpl. rewrite Hs. by destruct (_ && _).
Qed.

(** X18. A container that comes out of the named constructor, before any
    special PDG code is set, rejects every particle of its array with
    [kHFCut], whatever the origin and decay masks the constructor set. *)
Theorem AcceptMCParticle_after_ctor_named (arr : list (option AliAODMCParticle))
    (gi kUnknownQuark kFromBottom kAnyDecay : Z) (fuel : nat) (i : Z)
    (p : AliAODMCParticle) :
  let c := ctor_named arr gi kUnknownQuark kFromBottom kAnyDecay in
  At c i = Some p → Accept fuel c i = Ret (false, kHFCut).
Proof.
  cbv zeta. intros Hat. unfold AcceptMCParticle. cbv zeta. rewrite Hat.
  reflexivity.
Qed.

End AcceptTheory.

(** ** The copies of the jets *)

Section CopiesTheory.

Variable kMaxJets : nat.
Variable AliAODJet : Type.

(** X19. Copying a branch into an array of [kMaxJets] slots stores beyond the
    array exactly when some slot at or beyond [kMaxJets], below the count,
    holds a jet: the loop runs before the count is cut. Otherwise every jet of
    the branch below the count lands in its slot and the other slots keep
    their content. *)
Theorem copy_branch_bounds (branch : list (option AliAODJet)) (nJets : Z)
    (arr : list AliAODJet) :
  length arr = kMaxJets →
  ((∃ i, copy_branch branch nJets arr = OutOfBounds i) ↔
   (∃ ir tmp, (kMaxJets ≤ ir)%nat ∧ Z.of_nat ir < nJets ∧ branch !! ir = Some (Some tmp))) ∧
  (∀ arr', copy_branch branch nJets arr = Written arr' →
     length arr' = kMaxJets ∧
     ∀ ir, arr' !! ir =
           match branch !! ir with
           | Some (Some tmp) => if decide (Z.of_nat ir < nJets ∧ (ir < kMaxJets)%nat)
                                then Some tmp else arr !! ir
           | _ => arr !! ir
           end).
Proof.
  intros Hl. unfold copy_branch.
  set (P := λ (n : nat) (w : written (list AliAODJet)),
    match w with
    | Written arr' =>
        length arr' = kMaxJets ∧
        (∀ ir tmp, (kMaxJets ≤ ir < n)%nat → branch !! ir ≠ Some (Some tmp)) ∧
        ∀ ir, arr' !! ir =
              match branch !! ir with
              | Some (Some tmp) => if decide (ir < n ∧ ir < kMaxJets)%nat
                                   then Some tmp else arr !! ir
              | _ => arr !! ir
              end
    | OutOfBounds i =>
        ∃ tmp, (kMaxJets ≤ i < n)%nat ∧ branch !! i = Some (Some tmp)
    end).
  match goal with |- context [for_ ?n ?body ?w0] =>
    assert (P n (for_ n body w0)) as Hinv; [apply (for__ind P)|]
  end.
  - unfold P. split_and!; [done|intros; lia|]. intros ir.
    destruct (branch !! ir) as [[tmp|]|]; [|done|done].
    rewrite decide_False; [done|lia].
  - intros n [u|j] Hn; unfold P.
    + intros (Hlu & Hno & Hval).
      assert (∀ ir t, ir ≠ n → branch !! ir = Some (Some t) →
                (if decide (ir < n ∧ ir < kMaxJets)%nat then Some t else arr !! ir) =
                (if decide (ir < S n ∧ ir < kMaxJets)%nat then Some t else arr !! ir))
        as Hsame.
      { intros ir t Hne _. destruct (decide (ir < n ∧ ir < kMaxJets)%nat);
          [rewrite decide_True; [done|lia]|rewrite decide_False; [done|lia]]. }
      destruct (branch !! n) as [[tmp|]|] eqn:Hb.
      * unfold store. destruct (decide (n < length u)%nat) as [Hin|Hout].
        -- rewrite length_insert. split_and!; [done| |].
           ++ intros ir tmp' Hir. apply Hno. lia.
           ++ intros ir. destruct (decide (ir = n)) as [->|Hne].
              ** rewrite list_lookup_insert_eq by done. rewrite Hb.
                 rewrite decide_True; [done|lia].
              ** rewrite list_lookup_insert_ne by done. rewrite Hval.
                 destruct (branch !! ir) as [[t|]|] eqn:Hbi; [|done|done].
                 by apply Hsame.
        -- exists tmp. split; [lia|done].
      * split_and!; [done| |].
        -- intros ir tmp' Hir. destruct (decide (ir = n)) as [->|Hne];
             [congruence|apply Hno; lia].
        -- intros ir. rewrite Hval.
           destruct (branch !! ir) as [[t|]|] eqn:Hbi; [|done|done].
           apply Hsame; [congruence|done].
      * split_and!; [done| |].
        -- intros ir tmp' Hir. destruct (decide (ir = n)) as [->|Hne];
             [congruence|apply Hno; lia].
        -- intros ir. rewrite Hval.
           destruct (branch !! ir) as [[t|]|] eqn:Hbi; [|done|done].
           apply Hsame; [congruence|done].
    + intros (tmp' & Hj & Hb'). exists tmp'. split; [lia|done].
  - destruct (for_ _ _ _) as [arr'|i]; unfold P in Hinv.
    + destruct Hinv as (Hl' & Hno & Hval). split.
      * split; [intros [i [=]]|]. intros (ir & tmp & Hk & Hn & Hb).
        exfalso. apply (Hno ir tmp); [lia|done].
      * intros arr'' [= <-]. split; [done|]. intros ir. rewrite Hval.
        destruct (branch !! ir) as [[t|]|]; [|done|done].
        destruct (decide (ir < Z.to_nat nJets ∧ ir < kMaxJets)%nat);
          [rewrite decide_True; [done|lia]|rewrite decide_False; [done|lia]].
    + destruct Hinv as (tmp & Hi & Hb).
      split; [|intros ? [=]]. split; [|by exists i].
      intros _. exists i, tmp. split_and!; [lia|lia|done].
Qed.

(** X20. The loop over the trigger jets never stores beyond the arrays: with
    arrays of [kMaxJets] slots it ends normally for every count, the slots
    below both the count and [kMaxJets] get the momentum of their trigger jet,
    and [genJets] is touched only when no generated branch is named. *)
Theorem copy_trigger_jets_bounds (Momentum : Type)
    (SetPxPyPzE : Momentum → AliAODJet → AliAODJet)
    (TriggerJet : nat → Momentum) (nPythiaGenJets : Z)
    (noBranchGen : bool) (pythiaGenJets genJets : list AliAODJet) :
  length pythiaGenJets = kMaxJets → length genJets = kMaxJets →
  ∃ py gen,
    copy_trigger_jets kMaxJets SetPxPyPzE TriggerJet nPythiaGenJets noBranchGen
      pythiaGenJets genJets = Written (py, gen) ∧
    length py = kMaxJets ∧ length gen = kMaxJets ∧
    (∀ ip, py !! ip = if decide (Z.of_nat ip < nPythiaGenJets ∧ (ip < kMaxJets)%nat)
                      then SetPxPyPzE (TriggerJet ip) <$> pythiaGenJets !! ip
                      else pythiaGenJets !! ip) ∧
    (∀ ip, gen !! ip = if decide (Z.of_nat ip < nPythiaGenJets ∧ (ip < kMaxJets)%nat
                                  ∧ noBranchGen = true)
                       then SetPxPyPzE (TriggerJet ip) <$> genJets !! ip
                       else genJets !! ip).
Proof.
  intros Hlp Hlg. unfold copy_trigger_jets.
  set (P := λ (n : nat) (w : written (list AliAODJet * list AliAODJet)),
    ∃ py gen, w = Written (py, gen) ∧
      length py = kMaxJets ∧ length gen = kMaxJets ∧
      (∀ ip, py !! ip = if decide (ip < n ∧ ip < kMaxJets)%nat
                        then SetPxPyPzE (TriggerJet ip) <$> pythiaGenJets !! ip
                        else pythiaGenJets !! ip) ∧
      (∀ ip, gen !! ip = if decide ((ip < n)%nat ∧ (ip < kMaxJets)%nat ∧ noBranchGen = true)
                         then SetPxPyPzE (TriggerJet ip) <$> genJets !! ip
                         else genJets !! ip)).
  match goal with |- context [for_ ?n ?body ?w0] =>
    assert (P n (for_ n body w0)) as Hinv; [apply (for__ind P)|]
  end.
  - exists pythiaGenJets, genJets. split_and!; [done|done|done| |];
      intros ip; rewrite decide_False; (done || lia).
  - intros n w Hn (py & gen & -> & Hpy & Hgen & Hvp & Hvg).
    destruct (decide (kMaxJets ≤ n)%nat) as [Hskip|Hin].
    + exists py, gen. split_and!; [done|done|done| |]; intros ip.
      * rewrite Hvp. destruct (decide (ip < n ∧ ip < kMaxJets)%nat);
          [rewrite decide_True; [done|lia]|rewrite decide_False; [done|lia]].
      * rewrite Hvg.
        destruct (decide ((ip < n)%nat ∧ (ip < kMaxJets)%nat ∧ noBranchGen = true))
          as [Hc|Hc]; [rewrite decide_True; [done|]|rewrite decide_False; [done|]];
          [destruct Hc as (? & ? & ?); split_and!; (done || lia)|].
        intros (? & ? & ?). apply Hc. split_and!; (done || lia).
    + unfold set_momentum. rewrite decide_True by lia.
      assert (∀ ip, alter (SetPxPyPzE (TriggerJet n)) n py !! ip =
                if decide (ip < S n ∧ ip < kMaxJets)%nat
                then SetPxPyPzE (TriggerJet ip) <$> pythiaGenJets !! ip
                else pythiaGenJets !! ip) as Hvp'.
      { intros ip. destruct (decide (ip = n)) as [->|Hne].
        - rewrite list_lookup_alter_eq, Hvp.
          rewrite decide_False by lia. rewrite decide_True; [done|lia].
        - rewrite list_lookup_alter_ne by done. rewrite Hvp.
          destruct (decide (ip < n ∧ ip < kMaxJets)%nat);
            [rewrite decide_True; [done|lia]|rewrite decide_False; [done|lia]]. }
      destruct noBranchGen.
      * rewrite decide_True by lia.
        exists (alter (SetPxPyPzE (TriggerJet n)) n py),
               (alter (SetPxPyPzE (TriggerJet n)) n gen).
        rewrite !length_alter. split_and!; [done|done|done|done|].
        intros ip. destruct (decide (ip = n)) as [->|Hne].
        -- rewrite list_lookup_alter_eq, Hvg.
           rewrite decide_False by lia.
           rewrite decide_True; [done|]. split_and!; (done || lia).
        -- rewrite list_lookup_alter_ne by done. rewrite Hvg.
           destruct (decide ((ip < n)%nat ∧ (ip < kMaxJets)%nat ∧ true = true))
             as [Hc|Hc]; [rewrite decide_True; [done|]|rewrite decide_False; [done|]];
             [destruct Hc as (? & ? & ?); split_and!; (done || lia)|].
           intros (? & ? & ?). apply Hc. split_and!; (done || lia).
      * exists (alter (SetPxPyPzE (TriggerJet n)) n py), gen.
        rewrite !length_alter. split_and!; [done|done|done|done|].
        intros ip. rewrite Hvg. rewrite !decide_False; [done| |]; by intros (_ & _ & ?).
  - destruct Hinv as (py & gen & Heq & Hpy & Hgen & Hvp & Hvg).
    exists py, gen. split_and!; [done|done|done| |]; intros ip.
    + rewrite Hvp. destruct (decide (ip < Z.to_nat nPythiaGenJets ∧ ip < kMaxJets)%nat);
        [rewrite decide_True; [done|lia]|rewrite decide_False; [done|lia]].
    + rewrite Hvg.
      destruct (decide ((ip < Z.to_nat nPythiaGenJets)%nat ∧ (ip < kMaxJets)%nat
                        ∧ noBranchGen = true))
        as [Hc|Hc]; [rewrite decide_True; [done|]|rewrite decide_False; [done|]];
        [destruct Hc as (? & ? & ?); split_and!; (done || lia)|].
      intros (? & ? & ?). apply Hc. split_and!; (done || lia).
Qed.

End CopiesTheory.

(** ** The further statements at concrete inputs *)

Lemma decay_stack_mothers_first : mothers_first decay_stack.
Proof.
  intros i p H. rewrite At_of_nat in H.
  do 5 (destruct i as [|i]; [injection H as <-; simpl; lia|]).
  simpl in H. discriminate.
Qed.

Lemma decay_stack_mothers_present : mothers_present decay_stack.
Proof.
  intros i p H Hm. rewrite At_of_nat in H.
  do 5 (destruct i as [|i];
        [injection H as <-; simpl in *; first [lia | by eexists]|]).
  simpl in H. discriminate.
Qed.

Lemma GetClosestJets_fresh_start_witness :
  let s := event [mkJet 0.0 0.0 20; mkJet 0.5 0.5 15] [mkJet 0.02 0.01 19.5] in
  let s' := set_iGenIndex [4; 4; 4; 4; 4]
              (set_iRecIndex [0; 1; 2; 3; 4]
                 (set_iFlag (replicate kMaxJets5 (replicate kMaxJets5 3)) s)) in
  inputs s = inputs s' ∧
  GetClosestJets kMaxJets5 Jet0 Jet_DeltaR s 0 =
  GetClosestJets kMaxJets5 Jet0 Jet_DeltaR s' 11.
Proof.
  cbv zeta. split; [reflexivity|].
  apply (GetClosestJets_fresh_start kMaxJets5 Jet Jet0 Jet_DeltaR).
  - event_wf.
  - event_wf.
  - reflexivity.
  - reflexivity.
Defined.

Lemma direction_pass_partner_iff_reach_witness :
  let s := event [mkJet 0.0 0.0 20; mkJet 0.5 0.5 15] [mkJet 0.02 0.01 19.5] in
  wf kMaxJets5 s ∧
  ∃ r, Z.of_nat r < nRecJets s ∧ (dR_of Jet0 Jet_DeltaR s 1 r <? maxDist)%float = true.
Proof.
  cbv zeta.
  assert (wf kMaxJets5
            (event [mkJet 0.0 0.0 20; mkJet 0.5 0.5 15] [mkJet 0.02 0.01 19.5])) as Hwf
    by event_wf.
  split; [exact Hwf|].
  destruct (direction_pass_partner_iff_reach kMaxJets5 Jet Jet0 Jet_DeltaR _ Hwf) as [H _].
  apply (H 1%nat); [by_compute|]. vm_compute. discriminate.
Defined.

Lemma GetClosestJets_out_of_reach_witness :
  let s := event [mkJet 0.0 0.0 20; mkJet 0.5 0.5 15]
                 [mkJet 3.0 0.0 19.5; mkJet (-3.0) 0.5 10] in
  let out := GetClosestJets kMaxJets5 Jet0 Jet_DeltaR s 0 in
  wf kMaxJets5 s ∧
  iGenIndex out !! 1%nat = Some (-1) ∧ iRecIndex out !! 1%nat = Some (-1).
Proof.
  cbv zeta.
  assert (wf kMaxJets5
            (event [mkJet 0.0 0.0 20; mkJet 0.5 0.5 15]
                   [mkJet 3.0 0.0 19.5; mkJet (-3.0) 0.5 10])) as Hwf
    by event_wf.
  split; [exact Hwf|].
  apply (GetClosestJets_out_of_reach kMaxJets5 Jet Jet0 Jet_DeltaR _ 0 Hwf);
    [|by_compute].
  intros g r Hg Hr. simpl in Hg, Hr.
  destruct g as [|[|g]]; [| |lia]; (destruct r as [|[|r]]; [| |lia]);
    vm_compute; reflexivity.
Defined.

Lemma GetClosestJets_single_pair_witness :
  let s := event [mkJet 0.0 0.0 20] [mkJet 0.02 0.01 19.5] in
  let out := GetClosestJets kMaxJets5 Jet0 Jet_DeltaR s 0 in
  wf kMaxJets5 s ∧ nGenJets s = 1 ∧ nRecJets s = 1 ∧
  iGenIndex out !! 0%nat = Some 0 ∧ iRecIndex out !! 0%nat = Some 0.
Proof.
  cbv zeta.
  assert (wf kMaxJets5 (event [mkJet 0.0 0.0 20] [mkJet 0.02 0.01 19.5])) as Hwf
    by event_wf.
  split; [exact Hwf|]. split; [reflexivity|]. split; [reflexivity|].
  exact (GetClosestJets_single_pair kMaxJets5 Jet Jet0 Jet_DeltaR _ 0 Hwf
           eq_refl eq_refl).
Defined.

Lemma GetClosestJets_at_most_one_witness :
  let s := event [mkJet 0.0 0.0 20; mkJet 1.0 1.0 15]
                 [mkJet 0.02 0.01 19.5; mkJet 1.01 0.98 10] in
  let out := GetClosestJets kMaxJets5 Jet0 Jet_DeltaR s 0 in
  wf kMaxJets5 s ∧
  ∀ r v, iGenIndex out !! r = Some v → v ≠ -1 → r = 1%nat ∧ v = nGenJets s - 1.
Proof.
  cbv zeta.
  assert (wf kMaxJets5
            (event [mkJet 0.0 0.0 20; mkJet 1.0 1.0 15]
                   [mkJet 0.02 0.01 19.5; mkJet 1.01 0.98 10])) as Hwf
    by event_wf.
  split; [exact Hwf|]. intros r v Hr Hv.
  destruct (GetClosestJets_at_most_one kMaxJets5 Jet Jet0 Jet_DeltaR _ 0 Hwf) as [H _].
  apply (H r 1%nat v 1 Hr); [vm_compute; reflexivity|exact Hv|lia].
Defined.

Lemma GetClosestJets_two_sided_pair_witness :
  let s := event [mkJet 0.0 0.0 20; mkJet 1.0 1.0 15]
                 [mkJet 0.02 0.01 19.5; mkJet 1.01 0.98 10] in
  let out := GetClosestJets kMaxJets5 Jet0 Jet_DeltaR s 0 in
  wf kMaxJets5 s ∧ 1 ≤ nGenJets s ∧ 1 ≤ nRecJets s ∧
  iRecIndex out !! 1%nat = Some 1 ∧ iGenIndex out !! 1%nat = Some 1.
Proof.
  cbv zeta.
  assert (wf kMaxJets5
            (event [mkJet 0.0 0.0 20; mkJet 1.0 1.0 15]
                   [mkJet 0.02 0.01 19.5; mkJet 1.01 0.98 10])) as Hwf
    by event_wf.
  split; [exact Hwf|]. split; [by_compute|]. split; [by_compute|].
  destruct (GetClosestJets_two_sided_pair kMaxJets5 Jet Jet0 Jet_DeltaR _ 0 Hwf)
    as [_ H]; [by_compute|by_compute|].
  apply H. vm_compute. split; reflexivity.
Defined.

Lemma GetClosestJets_nonpositive_count_witness :
  let s := set_nGenJets (-1) (event [] [mkJet 0.02 0.01 19.5]) in
  let out := GetClosestJets kMaxJets5 Jet0 Jet_DeltaR s 0 in
  wf kMaxJets5 s ∧ nGenJets s ≤ 0 ∧
  iGenIndex out = replicate kMaxJets5 (-1) ∧ iRecIndex out = replicate kMaxJets5 (-1).
Proof.
  cbv zeta.
  assert (wf kMaxJets5 (set_nGenJets (-1) (event [] [mkJet 0.02 0.01 19.5]))) as Hwf
    by event_wf.
  split; [exact Hwf|]. split; [by_compute|].
  apply (GetClosestJets_nonpositive_count kMaxJets5 Jet Jet0 Jet_DeltaR _ 0 Hwf).
  left. by_compute.
Defined.

Lemma UserExec_relate_counts_witness :
  let tr := (UserExec_relate kMaxJets5 Jet0 Jet_DeltaR Pt Eta Phi Pt
               crowded_event 0 1 25).2 in
  dims kMaxJets5 crowded_event ∧
  count_fills fh1PtRecIn tr = 5%nat ∧ count_fills fh1PtGenIn tr = 2%nat ∧
  (count_fills fh1PtRecOut tr ≤ 1)%nat ∧ (count_fills fh1PtGenOut tr ≤ 1)%nat.
Proof.
  cbv zeta.
  assert (dims kMaxJets5 crowded_event) as Hd by event_wf.
  split; [exact Hd|].
  exact (UserExec_relate_counts kMaxJets5 Jet Jet0 Jet_DeltaR Pt Eta Phi Pt
           crowded_event 0 1 25 Hd).
Defined.

Lemma UserExec_relate_fills_witness :
  let f := Fill fh3RecEtaPhiPt 4 [0.5; -2.0 + kPi * 2; 7]%float 1 in
  dims kMaxJets5 crowded_event ∧
  f ∈ (UserExec_relate kMaxJets5 Jet0 Jet_DeltaR Pt Eta Phi Pt crowded_event 0 1 25).2 ∧
  (fill_slot f < kMaxJets5)%nat ∧
  PerJet (fill_hist f) (fill_slot f) ∉ UserCreateOutputObjects_fHistList kMaxJets5 [].
Proof.
  cbv zeta.
  assert (dims kMaxJets5 crowded_event) as Hd by event_wf.
  assert (Fill fh3RecEtaPhiPt 4 [0.5; -2.0 + kPi * 2; 7]%float 1 ∈
          (UserExec_relate kMaxJets5 Jet0 Jet_DeltaR Pt Eta Phi Pt crowded_event 0 1 25).2)
    as Hin.
  { vm_compute. repeat first [apply list_elem_of_here | apply list_elem_of_further]. }
  split; [exact Hd|]. split; [exact Hin|].
  destruct (UserExec_relate_fills kMaxJets5 Jet Jet0 Jet_DeltaR Pt Eta Phi Pt
              crowded_event 0 1 25 _ Hd Hin) as [Hslot Hiff].
  split; [exact Hslot|]. intros Hl. apply Hiff in Hl as [Hne _]. by apply Hne.
Defined.

Lemma IsSpecialPDGDaughter_answer_witness :
  let kaon := mkParticle (-321) false 0 0 in
  IsSpecialPDGDaughter 3 decay_stack (Some kaon) = Ret true ∧
  ∃ a, ancestor decay_stack kaon a ∧ is_special decay_stack a = true.
Proof.
  cbv zeta. split; [reflexivity|].
  apply (IsSpecialPDGDaughter_answer decay_stack 3 (mkParticle (-321) false 0 0) true).
  - vm_compute. discriminate.
  - reflexivity.
  - reflexivity.
Defined.

Lemma IsSpecialPDGDaughter_ends_witness :
  let electron := mkParticle 11 false 3 0 in
  At decay_stack 4 = Some electron ∧
  ∃ b, IsSpecialPDGDaughter 5 decay_stack (Some electron) = Ret b.
Proof.
  cbv zeta. split; [reflexivity|].
  destruct (IsSpecialPDGDaughter_ends decay_stack 4 5 (mkParticle 11 false 3 0)
              decay_stack_mothers_first eq_refl) as [_ H]; [lia|].
  exact (H decay_stack_mothers_present).
Defined.

Lemma mother_walk_self_mother_witness :
  let photon := mkParticle 22 false 0 0 in
  At looping_stack 0 = Some photon ∧
  IsSpecialPDGDaughter 1000 looping_stack (Some photon) = OutOfFuel.
Proof.
  cbv zeta. split; [reflexivity|].
  apply (mother_walk_self_mother looping_stack 0 (mkParticle 22 false 0 0)).
  - vm_compute. discriminate.
  - reflexivity.
  - reflexivity.
  - reflexivity.
Defined.

Lemma AcceptMCParticle_not_special_witness :
  let accept := AcceptMCParticle 32 1024 (λ _ _, 0) (λ _ _, 0)
                  (λ _ _ r, (true, r)) (λ _ _ r, (true, r)) in
  accept 5%nat decay_stack 1 = Ret (false, 32) ∧
  accept 5%nat decay_stack 4 = Ret (true, 0).
Proof.
  cbv zeta. split.
  - destruct (AcceptMCParticle_not_special 32 1024 (λ _ _, 0) (λ _ _, 0)
                (λ _ _ r, (true, r)) (λ _ _ r, (true, r))
                decay_stack 1 5 (mkParticle (-321) false 0 0)) as [H _].
    + vm_compute. discriminate.
    + exact decay_stack_mothers_first.
    + exact decay_stack_mothers_present.
    + reflexivity.
    + reflexivity.
    + lia.
    + apply H. exists (mkParticle 421 true (-1) 0).
      split; [by apply ancestor_mother|reflexivity].
  - destruct (AcceptMCParticle_not_special 32 1024 (λ _ _, 0) (λ _ _, 0)
                (λ _ _ r, (true, r)) (λ _ _ r, (true, r))
                decay_stack 4 5 (mkParticle 11 false 3 0)) as [_ H].
    + vm_compute. discriminate.
    + exact decay_stack_mothers_first.
    + exact decay_stack_mothers_present.
    + reflexivity.
    + reflexivity.
    + lia.
    + apply H. intros a Ha.
      inversion Ha as [? m Hat|? m ? Hat Hfar]; subst;
        simpl in Hat; injection Hat as <-; [reflexivity|].
      inversion Hfar as [? m Hat|? m ? Hat _]; subst; simpl in Hat; discriminate.
Defined.

Lemma AcceptMCParticle_special_witness :
  let accept := AcceptMCParticle 32 1024 (λ _ _, 0) (λ _ _, 0)
                  (λ _ _ r, (true, r)) (λ _ _ r, (true, r)) in
  is_special decay_stack (mkParticle 421 true (-1) 0) = true ∧
  accept 0%nat decay_stack 0 = Ret (true, 0).
Proof.
  cbv zeta. split; [reflexivity|].
  apply (AcceptMCParticle_special 32 1024 (λ _ _, 0) (λ _ _, 0)
           (λ _ _ r, (true, r)) (λ _ _ r, (true, r))
           decay_stack 0 0 (mkParticle 421 true (-1) 0)).
  - vm_compute. discriminate.
  - reflexivity.
  - reflexivity.
Defined.

Lemma AcceptMCParticle_after_ctor_named_witness :
  let arr := [Some (mkParticle 421 true (-1) 0); Some (mkParticle (-321) false 0 0)] in
  let c := ctor_named arr (-1) 1 4 7 in
  At c 1 = Some (mkParticle (-321) false 0 0) ∧
  AcceptMCParticle 32 1024 (λ _ _, 0) (λ _ _, 0) (λ _ _ r, (true, r)) (λ _ _ r, (true, r))
    0%nat c 1 = Ret (false, 32).
Proof.
  cbv zeta. split; [reflexivity|].
  apply (AcceptMCParticle_after_ctor_named 32 1024 (λ _ _, 0) (λ _ _, 0)
           (λ _ _ r, (true, r)) (λ _ _ r, (true, r))
           [Some (mkParticle 421 true (-1) 0); Some (mkParticle (-321) false 0 0)]
           (-1) 1 4 7 0%nat 1 (mkParticle (-321) false 0 0)).
  reflexivity.
Defined.

Lemma copy_branch_bounds_witness :
  let branch := [Some (mkJet 0.0 0.0 20); Some (mkJet 0.5 0.5 15); None;
                 Some (mkJet 1.0 1.0 12); Some (mkJet 1.5 1.5 11);
                 Some (mkJet 2.0 2.0 10)] in
  let arr := replicate kMaxJets5 Jet0 in
  length arr = kMaxJets5 ∧ ∃ i, copy_branch branch 6 arr = OutOfBounds i.
Proof.
  cbv zeta. split; [reflexivity|].
  destruct (copy_branch_bounds kMaxJets5 Jet
              [Some (mkJet 0.0 0.0 20); Some (mkJet 0.5 0.5 15); None;
               Some (mkJet 1.0 1.0 12); Some (mkJet 1.5 1.5 11);
               Some (mkJet 2.0 2.0 10)] 6 (replicate kMaxJets5 Jet0) eq_refl)
    as [[_ H] _].
  apply H. exists 5%nat, (mkJet 2.0 2.0 10).
  split; [by_compute|]. split; [lia|reflexivity].
Defined.

Lemma copy_trigger_jets_bounds_witness :
  let arr := replicate kMaxJets5 Jet0 in
  length arr = kMaxJets5 ∧
  ∃ py gen,
    copy_trigger_jets kMaxJets5 (λ (p : Jet) (_ : Jet), p)
      (λ ip, mkJet 0 0 20) 8 true arr arr = Written (py, gen) ∧
    length py = kMaxJets5 ∧ length gen = kMaxJets5.
Proof.
  cbv zeta. split; [reflexivity|].
  destruct (copy_trigger_jets_bounds kMaxJets5 Jet Jet (λ (p : Jet) (_ : Jet), p)
              (λ ip, mkJet 0 0 20) 8 true (replicate kMaxJets5 Jet0)
              (replicate kMaxJets5 Jet0) eq_refl eq_refl)
    as (py & gen & Heq & Hpy & Hgen & _).
  exists py, gen. split; [exact Heq|]. split; [exact Hpy|exact Hgen].
Defined.
